(** * Hawkes process EM (hawkes/hawkes.py): embedding and properties

    The program fits a univariate Hawkes process with kernel
    [a * exp (- b * gap)] by Expectation-Maximization.  Its arrays are numpy
    arrays of float64; here a float is idealised as a real number ([R]), a
    1-D array is a [list R] and a 2-D array a list of rows.  numpy turns a
    division by zero into inf or nan without raising; [Rdiv] is total, so
    every statement below that reads a quotient either has a non-zero
    denominator by its hypotheses or says so.

    Python exceptions are the [Raise] results of a small error monad.  The
    root finder [scipy.optimize.newton] is outside the repository and is a
    parameter of the EM driver.

    What the idealisation hides is overflow and rounding.  The module
    [Float64] therefore repeats the dense E-step on IEEE 754 binary64
    numbers, the kernel's primitive floats, to show where the two part. *)

From Stdlib Require Import Reals Lra Lia List Arith Bool PrimFloat.
Import ListNotations.
Open Scope R_scope.

(** ** Exceptions *)

Inductive exn : Type :=
| IndexError         (* bad subscript, too many indices for an array *)
| AxisError          (* np.sum over an axis the array does not have *)
| ValueError         (* shape mismatch in an indexed assignment *)
| UnboundLocalError  (* a local read before any assignment *)
| RuntimeError.      (* scipy's newton: failed to converge *)

Inductive result (A : Type) : Type :=
| Ok (a : A)
| Raise (e : exn).
Arguments Ok {A} a.
Arguments Raise {A} e.

Definition bind {A B : Type} (r : result A) (k : A -> result B) : result B :=
  match r with
  | Ok a => k a
  | Raise e => Raise e
  end.

Notation "x <- r ;; k" := (bind r (fun x => k))
  (at level 61, r at next level, right associativity).

(** ** The fragment of numpy the program uses *)

Module Np.

Definition vector := list R.
Definition matrix := list (list R).

(** [np.sum] of a 1-D array. *)
Definition sum (v : vector) : R := fold_right Rplus 0 v.

(** [m.sum()] of a 2-D array: every entry. *)
Definition sum2 (m : matrix) : R := sum (map sum m).

(** [np.sum(m, axis=1)]: one sum per row. *)
Definition sum_axis1 (m : matrix) : vector := map sum m.

(** [np.zeros((r, c))]. *)
Definition zeros (r c : nat) : matrix := repeat (repeat 0 c) r.

(** [m.shape[0]]. *)
Definition shape0 {A : Type} (m : list A) : nat := length m.

(** Number of columns of a 2-D array (0 when it has no row). *)
Definition shape1 (m : matrix) : nat := length (nth 0 m []).

(** Reading [m[i, j]] at a position inside the array. *)
Definition get2 (m : matrix) (i j : nat) : R := nth j (nth i m []) 0.

(** [l[i] = x] on a list, inside its range. *)
Fixpoint upd {A : Type} (i : nat) (x : A) (l : list A) : list A :=
  match l, i with
  | [], _ => []
  | _ :: l', O => x :: l'
  | y :: l', S i' => y :: upd i' x l'
  end.

(** [m[i, j] = x] at a position inside the array. *)
Definition set2 (m : matrix) (i j : nat) (x : R) : matrix :=
  upd i (upd j x (nth i m [])) m.

(** A run of single-cell assignments, in order. *)
Definition assign (m : matrix) (asg : list (nat * nat * R)) : matrix :=
  fold_left (fun m' '(i, j, x) => set2 m' i j x) asg m.

Definition in_bounds (m : matrix) (c : nat * nat) : bool :=
  (fst c <? length m)%nat && (snd c <? length (nth (fst c) m []))%nat.

(** [np.diag_indices(n)]: a tuple of [ndim = 2] copies of [arange(n)]. *)
Definition diag_indices (n : nat) : list (list nat) := [seq 0 n; seq 0 n].

(** The cells of the upper triangle, diagonal included, row by row. *)
Definition triu_cells (n : nat) : list (nat * nat) :=
  flat_map (fun i => map (fun j => (i, j)) (seq i (n - i))) (seq 0 n).

(** [np.triu_indices(n)]: the row indices and the column indices. *)
Definition triu_indices (n : nat) : list (list nat) :=
  [map fst (triu_cells n); map snd (triu_cells n)].

(** [m[ix] = x] for a 2-D array [m], a tuple [ix] of integer index arrays
    and a scalar [x].  Two index arrays address cells and must have one
    length; one index array addresses whole rows; the empty tuple addresses
    the whole array; more index arrays than dimensions is an [IndexError],
    as is an index outside the array. *)
Definition setitem2 (m : matrix) (ix : list (list nat)) (x : R) : result matrix :=
  match ix with
  | [] => Ok (map (map (fun _ => x)) m)
  | [ri] =>
      if forallb (fun i => (i <? length m)%nat) ri
      then Ok (fold_left (fun m' i => upd i (map (fun _ => x) (nth i m' [])) m') ri m)
      else Raise IndexError
  | [ri; ci] =>
      if negb (length ri =? length ci)%nat then Raise IndexError
      else if forallb (in_bounds m) (combine ri ci)
      then Ok (assign m (map (fun c => (fst c, snd c, x)) (combine ri ci)))
      else Raise IndexError
  | _ => Raise IndexError
  end.

(** [m[ix] = vals] for two index arrays and a 1-D array of values of the
    same length. *)
Definition setitem2_arr (m : matrix) (ix : list (list nat)) (vals : vector)
  : result matrix :=
  match ix with
  | [ri; ci] =>
      if negb (length ri =? length ci)%nat then Raise IndexError
      else if negb (length vals =? length ri)%nat then Raise ValueError
      else if forallb (in_bounds m) (combine ri ci)
      then Ok (assign m (map (fun cv => (fst (fst cv), snd (fst cv), snd cv))
                             (combine (combine ri ci) vals)))
      else Raise IndexError
  | _ => Raise IndexError
  end.

(** [v[ix] = x] for a 1-D array [v]: one index array addresses elements;
    two or more index arrays are too many indices for the array. *)
Definition setitem1 (v : vector) (ix : list (list nat)) (x : R) : result vector :=
  match ix with
  | [] => Ok (map (fun _ => x) v)
  | [ri] =>
      if forallb (fun i => (i <? length v)%nat) ri
      then Ok (fold_left (fun v' i => upd i x v') ri v)
      else Raise IndexError
  | _ => Raise IndexError
  end.

(** [np.sum(v, axis=1)] on a 1-D array: there is no axis 1. *)
Definition sum_axis1_1d (v : vector) : result vector := Raise AxisError.

(** [m /= s[np.newaxis].T]: row [i] of [m] divided by [s[i]]. *)
Definition div_rows (m : matrix) (s : vector) : matrix :=
  map (fun rs => map (fun x => x / snd rs) (fst rs)) (combine m s).

(** [v /= s[np.newaxis].T] for a 1-D [v] and the column [s]: broadcasting
    yields a 2-D array, which cannot be stored back into [v]. *)
Definition div_rows_1d (v s : vector) : result vector := Raise ValueError.

(** [np.diag(m)] of a 2-D array: the main diagonal. *)
Definition diag (m : matrix) : vector :=
  map (fun i => get2 m i i) (seq 0 (Nat.min (length m) (shape1 m))).

(** [m1 * m2], element by element, for two arrays of one shape. *)
Definition mul2 (m1 m2 : matrix) : matrix :=
  map (fun rr => map (fun xy => fst xy * snd xy) (combine (fst rr) (snd rr)))
      (combine m1 m2).

(** [np.tile(v, (n, 1))]: [n] rows, each a copy of [v]. *)
Definition tile (v : vector) (n : nat) : matrix := repeat v n.

(** [t[0]] and [t[-1]]. *)
Definition first (t : vector) : result R :=
  match t with
  | [] => Raise IndexError
  | x :: _ => Ok x
  end.

Definition last (t : vector) : result R :=
  match t with
  | [] => Raise IndexError
  | x :: t' => Ok (List.last t' x)
  end.

End Np.

Import Np.

(** ** scipy's compressed sparse row matrix

    [csr_matrix((data, (row, col)), shape)] stores the given entries.  The
    program hands them over row by row with increasing columns and without
    repetition, the order in which the compressed form keeps them, so the
    stored entries are recorded as they are given: [csr_data] is the array
    [.data], [csr_row] and [csr_col] are the positions of its elements. *)

Record csr_matrix : Type := mk_csr {
  csr_shape : nat * nat;
  csr_row : list nat;
  csr_col : list nat;
  csr_data : vector
}.

(** The positions that hold a stored entry. *)
Definition stored (m : csr_matrix) : list (nat * nat) :=
  combine (csr_row m) (csr_col m).

(** The stored entries with their values. *)
Definition entries (m : csr_matrix) : list (nat * nat * R) :=
  combine (stored m) (csr_data m).

(** ** hawkes.py *)

(** [TDMatrix(t)], lines 7-28: the two loops fill the lower triangle of an
    [n] by [n] array of zeros. *)
Definition TDMatrix (t : vector) : matrix :=
  let n := length t in
  fold_left
    (fun dt i =>
       fold_left (fun dt' j => set2 dt' i j (nth i t 0 - nth j t 0))
                 (seq 0 (i + 1)) dt)
    (seq 0 n) (zeros n n).

(** The three lists [row], [col], [data] that [SparseTDMatrix] appends to. *)
Definition coo : Type := list nat * list nat * list R.

Definition coo_append (acc : coo) (i j : nat) (td : R) : coo :=
  (fst (fst acc) ++ [i], snd (fst acc) ++ [j], snd acc ++ [td]).

(** [SparseTDMatrix(t, max_td)], lines 31-44. *)
Definition SparseTDMatrix (t : vector) (max_td : R) : csr_matrix :=
  let n := length t in
  let acc :=
    fold_left
      (fun acc i =>
         fold_left
           (fun acc' j =>
              let td := nth i t 0 - nth j t 0 in
              if Rge_dec td max_td then coo_append acc' i j td else acc')
           (seq 0 (i + 1)) acc)
      (seq 0 n) (([], [], []) : coo) in
  mk_csr (n, n) (fst (fst acc)) (snd (fst acc)) (snd acc).

(** [SparseStructProbMatrix(dt, mu, a, b)], lines 47-69: [dt.data] is the
    1-D array of stored values, so [p] is 1-D. *)
Definition SparseStructProbMatrix (dt : csr_matrix) (mu a b : R) : result vector :=
  let p := map (fun d => a * exp (- b * d)) (csr_data dt) in
  p <- setitem1 p (diag_indices (shape0 p)) mu ;;
  s <- sum_axis1_1d p ;;
  div_rows_1d p s.

(** [StructProbMatrix(dt, mu, a, b)], lines 72-95. *)
Definition StructProbMatrix (dt : matrix) (mu a b : R) : result matrix :=
  let p := map (map (fun d => a * exp (- b * d))) dt in
  p <- setitem2 p (triu_indices (shape0 p)) 0 ;;
  p <- setitem2 p (diag_indices (shape0 p)) mu ;;
  Ok (div_rows p (sum_axis1 p)).

(** [StructProbMatrixFromTime(t, mu, a, b)], lines 98-125. *)
Definition StructProbMatrixFromTime (t : vector) (mu a b : R) : result matrix :=
  let n := length t in
  let p := tile (map (fun ti => exp (b * ti)) t) n in
  p <- setitem2 p (triu_indices n) 0 ;;
  p <- setitem2_arr p (diag_indices n) (map (fun ti => mu / a * exp (b * ti)) t) ;;
  Ok (div_rows p (sum_axis1 p)).

(** [T = t[-1] - t[0]], the first statement of [Q] and of the EM driver. *)
Definition horizon (t : vector) : result R :=
  tl <- last t ;;
  t0 <- first t ;;
  Ok (tl - t0).

(** [Q(mu, a, b, t, p, dt)], lines 127-158. *)
Definition Q (mu a b : R) (t : vector) (p dt : matrix) : result R :=
  T <- horizon t ;;
  Ok (ln mu * sum (diag p) - mu * T
      + sum2 (mul2 p (map (map (fun d => ln a - b * d)) dt))
      + a / b * sum (map (fun ti => exp (- b * (T - ti)) - 1) t)).

(** [np.sum(1 - np.exp(-b * (T - t)))], the denominator shared by the root
    objective and by the update of [a]. *)
Definition survivor (t : vector) (T b : R) : R :=
  sum (map (fun ti => 1 - exp (- b * (T - ti))) t).

(** [f(t, T, S0, S1, S2)], lines 161-176: the closure [fclosed]. *)
Definition f (t : vector) (T S0 S1 S2 : R) : R -> R :=
  fun b =>
    S2 + S1 / b
    - S1 * (sum (map (fun ti => (T - ti) * exp (- b * (T - ti))) t)
            / survivor t T b).

(** The root finder: [newton(func, x0)] returns a float or raises. *)
Definition solver : Type := (R -> R) -> R -> result R.

(** The arguments the observer is called with, line 203. *)
Record observation : Type := mk_obs {
  o_mu : R; o_a : R; o_b : R;
  o_t : vector; o_p : matrix; o_dt : matrix;
  o_T : R; o_S0 : R; o_S1 : R; o_S2 : R
}.

(** The sufficient statistics, lines 194-196. *)
Definition stat0 (p : matrix) : R := sum (diag p).
Definition stat1 (t : vector) (p : matrix) : R := INR (length t) - stat0 p.
Definition stat2 (p dt : matrix) : R := - sum2 (mul2 p dt).

Section Driver.

Variable newton : solver.

(** The maximization, lines 194-200, from the responsibilities [p]. *)
Definition maximization (t : vector) (T : R) (dt p : matrix) (b : R)
  : result observation :=
  let S0 := stat0 p in
  let S1 := stat1 t p in
  let S2 := stat2 p dt in
  let mu := S0 / T in
  b' <- newton (f t T S0 S1 S2) b ;;
  let a := b' * S1 / survivor t T b' in
  Ok (mk_obs mu a b' t p dt T S0 S1 S2).

(** One pass of the loop body, lines 189-200. *)
Definition iteration (t : vector) (T : R) (dt : matrix) (mu a b : R)
  : result observation :=
  p <- StructProbMatrix dt mu a b ;;
  maximization t T dt p b.

(** The loop, lines 187-203.  The first component lists the calls of the
    observer; [p] is unbound until the first pass has assigned it. *)
Fixpoint loop (niter : nat) (callback : bool) (t : vector) (T : R) (dt : matrix)
  (mu a b : R) (p : option matrix)
  : list observation * result (R * R * R * option matrix) :=
  match niter with
  | O => ([], Ok (mu, a, b, p))
  | S k =>
      match iteration t T dt mu a b with
      | Raise e => ([], Raise e)
      | Ok o =>
          let rest := loop k callback t T dt (o_mu o) (o_a o) (o_b o) (Some (o_p o)) in
          ((if callback then [o] else []) ++ fst rest, snd rest)
      end
  end.

(** [ExpectationMaximization(t, niter, mu0, a0, b0, callback)], lines
    178-205. *)
Definition ExpectationMaximization (t : vector) (niter : nat) (mu0 a0 b0 : R)
  (callback : bool) : list observation * result (R * R * R * matrix) :=
  match horizon t with
  | Raise e => ([], Raise e)
  | Ok T =>
      let dt := TDMatrix t in
      let run := loop niter callback t T dt mu0 a0 b0 None in
      (fst run,
       st <- snd run ;;
       match snd st with
       | None => Raise UnboundLocalError
       | Some p => Ok (fst st, p)
       end)
  end.

End Driver.

(** ** The dense E-step on float64

    numpy's [float64] is IEEE 754 binary64 with rounding to nearest, ties to
    even: the kernel's [float], whose [+], [-], [*] and [/] are the
    operations numpy applies element by element.  An overflow or a division
    by zero raises nothing in numpy (it warns and stores inf or nan), so
    these operations are total here as well.

    [np.exp] is the C library's [exp], which IEEE 754 does not fix bit by
    bit; it is a parameter [np_exp], of which [exp_at_zero] records what
    Annex F of the C standard requires at a zero argument. *)

Module Float64.

Definition vector := list float.
Definition matrix := list (list float).

(** [np.sum] of a 1-D array, added in one pass from the left.  numpy adds
    long rows in blocks; a row of two elements has one sum in any order. *)
Definition sum (v : vector) : float := fold_left PrimFloat.add v 0%float.

(** [np.sum(m, axis=1)]. *)
Definition sum_axis1 (m : matrix) : vector := map sum m.

(** [np.zeros((r, c))]. *)
Definition zeros (r c : nat) : matrix := repeat (repeat 0%float c) r.

(** [m[i, j] = x] at a position inside the array. *)
Definition set2 (m : matrix) (i j : nat) (x : float) : matrix :=
  upd i (upd j x (nth i m [])) m.

Definition assign (m : matrix) (asg : list (nat * nat * float)) : matrix :=
  fold_left (fun m' '(i, j, x) => set2 m' i j x) asg m.

Definition in_bounds (m : matrix) (c : nat * nat) : bool :=
  (fst c <? length m)%nat && (snd c <? length (nth (fst c) m []))%nat.

(** [m[ix] = x] for a 2-D array, as [Np.setitem2]. *)
Definition setitem2 (m : matrix) (ix : list (list nat)) (x : float) : result matrix :=
  match ix with
  | [] => Ok (map (map (fun _ => x)) m)
  | [ri] =>
      if forallb (fun i => (i <? length m)%nat) ri
      then Ok (fold_left (fun m' i => upd i (map (fun _ => x) (nth i m' [])) m') ri m)
      else Raise IndexError
  | [ri; ci] =>
      if negb (length ri =? length ci)%nat then Raise IndexError
      else if forallb (in_bounds m) (combine ri ci)
      then Ok (assign m (map (fun c => (fst c, snd c, x)) (combine ri ci)))
      else Raise IndexError
  | _ => Raise IndexError
  end.

(** [m /= s[np.newaxis].T]. *)
Definition div_rows (m : matrix) (s : vector) : matrix :=
  map (fun rs => map (fun x => (x / snd rs)%float) (fst rs)) (combine m s).

(** [TDMatrix(t)], lines 7-28. *)
Definition TDMatrix (t : vector) : matrix :=
  let n := length t in
  fold_left
    (fun dt i =>
       fold_left (fun dt' j => set2 dt' i j (nth i t 0 - nth j t 0)%float)
                 (seq 0 (i + 1)) dt)
    (seq 0 n) (zeros n n).

(** [StructProbMatrix(dt, mu, a, b)], lines 72-95.  In [-b * dt] the sign
    is applied to [b] first. *)
Definition StructProbMatrix (np_exp : float -> float) (dt : matrix)
  (mu a b : float) : result matrix :=
  let p := map (map (fun d => (a * np_exp (PrimFloat.opp b * d))%float)) dt in
  p <- setitem2 p (triu_indices (shape0 p)) 0%float ;;
  p <- setitem2 p (diag_indices (shape0 p)) mu ;;
  Ok (div_rows p (sum_axis1 p)).


End Float64.

(** ** Vocabulary of the properties *)

(** Strictly increasing timestamps. *)
Fixpoint increasing (t : vector) : Prop :=
  match t with
  | x :: ((y :: _) as t') => x < y /\ increasing t'
  | _ => True
  end.

(** An [r] by [c] array. *)
Definition is_matrix (r c : nat) (m : matrix) : Prop :=
  length m = r /\ Forall (fun row => length row = c) m.

(** The [r] by [c] array with entry [g i j] at [(i, j)]. *)
Definition table (r c : nat) (g : nat -> nat -> R) : matrix :=
  map (fun i => map (fun j => g i j) (seq 0 c)) (seq 0 r).

(** Sum over the pairs [(i, j)] with [j <= i < n]. *)
Definition tri_sum (n : nat) (g : nat -> nat -> R) : R :=
  sum (map (fun i => sum (map (fun j => g i j) (seq 0 (i + 1)))) (seq 0 n)).

(** Zero above the diagonal. *)
Definition lower (n : nat) (p : matrix) : Prop :=
  forall i j, (i < n)%nat -> (j < n)%nat -> (i < j)%nat -> get2 p i j = 0.

(** The weights that [StructProbMatrix] normalizes: the kernel below the
    diagonal, [mu] on it, nothing above. *)
Definition raw (dt : matrix) (mu a b : R) (i j : nat) : R :=
  if (j <? i)%nat then a * exp (- b * get2 dt i j)
  else if (j =? i)%nat then mu else 0.

(** The weights that [StructProbMatrixFromTime] normalizes. *)
Definition raw_time (t : vector) (mu a b : R) (i j : nat) : R :=
  if (j <? i)%nat then exp (b * nth j t 0)
  else if (j =? i)%nat then mu / a * exp (b * nth i t 0) else 0.

(** The [n] by [n] array of weights [w] with every row divided by its sum. *)
Definition normalized (n : nat) (w : nat -> nat -> R) : matrix :=
  table n n (fun i j => w i j / sum (map (w i) (seq 0 n))).

(** The cells of the diagonal. *)
Definition diag_cells (n : nat) : list (nat * nat) :=
  map (fun i => (i, i)) (seq 0 n).

(** Storing one scalar in a list of cells. *)
Definition fill (x : R) (cells : list (nat * nat)) : list (nat * nat * R) :=
  map (fun c => (fst c, snd c, x)) cells.

(** The value of the surrogate objective as the specification writes it. *)
Definition Q_formula (mu a b : R) (t : vector) (p dt : matrix) : R :=
  let n := length t in
  let T := nth (n - 1) t 0 - nth 0 t 0 in
  let S0 := sum (map (fun i => get2 p i i) (seq 0 n)) in
  ln mu * S0 - mu * T
  + tri_sum n (fun i j => get2 p i j * (ln a - b * get2 dt i j))
  + a / b * sum (map (fun ti => exp (- b * (T - ti)) - 1) t).

(** A root finder that accepts its seed when the seed is already a root and
    reports non-convergence otherwise: the least a root finder can do, used
    to run the driver on concrete inputs. *)
Definition seed_solver : solver :=
  fun g x0 => if Req_dec_T (g x0) 0 then Ok x0 else Raise RuntimeError.



(** The assignments made by two nested loops [for i in range(n)],
    [for j in range(i + 1)] that store [v i j] at [(i, j)]. *)
Definition lower_cells (n : nat) (v : nat -> nat -> R) : list (nat * nat * R) :=
  flat_map (fun i => map (fun j => (i, j, v i j)) (seq 0 (i + 1))) (seq 0 n).

(** The entries gathered in the three lists of [SparseTDMatrix]. *)
Definition coo_entries (acc : coo) : list (nat * nat * R) :=
  combine (combine (fst (fst acc)) (snd (fst acc))) (snd acc).

(** The three lists grow together. *)
Definition coo_wf (acc : coo) : Prop :=
  length (fst (fst acc)) = length (snd (fst acc)) /\
  length (fst (fst acc)) = length (snd acc).

(** The test [td >= max_td] of line 39. *)
Definition keeps (max_td : R) (e : nat * nat * R) : bool :=
  if Rge_dec (snd e) max_td then true else false.

(** ** Lists as arrays *)

Lemma length_upd {A : Type} (i : nat) (x : A) (l : list A) :
  length (upd i x l) = length l.
Proof.
  revert i; induction l as [|y l IH]; intros [|i]; simpl; auto.
Qed.

Lemma nth_upd_eq {A : Type} (i : nat) (x d : A) (l : list A) :
  (i < length l)%nat -> nth i (upd i x l) d = x.
Proof.
  revert i; induction l as [|y l IH]; intros [|i] H; simpl in *; try lia; auto.
  apply IH; lia.
Qed.

Lemma nth_upd_ne {A : Type} (i k : nat) (x d : A) (l : list A) :
  k <> i -> nth k (upd i x l) d = nth k l d.
Proof.
  revert i k; induction l as [|y l IH]; intros [|i] [|k] H; simpl; auto;
    try (exfalso; lia); try (apply IH; lia).
Qed.

Lemma is_matrix_row (r c : nat) (m : matrix) (i : nat) :
  is_matrix r c m -> (i < r)%nat -> length (nth i m []) = c.
Proof.
  intros [Hr Hc] Hi. rewrite Forall_forall in Hc.
  apply Hc, nth_In. lia.
Qed.

Lemma is_matrix_intro (r c : nat) (m : matrix) :
  length m = r -> (forall i, (i < r)%nat -> length (nth i m []) = c) ->
  is_matrix r c m.
Proof.
  intros Hr Hc. split; [exact Hr|].
  apply Forall_forall. intros row Hin.
  destruct (In_nth _ _ [] Hin) as [i [Hi <-]]. apply Hc. lia.
Qed.

Lemma matrix_ext (r c : nat) (m m' : matrix) :
  is_matrix r c m -> is_matrix r c m' ->
  (forall i j, (i < r)%nat -> (j < c)%nat -> get2 m i j = get2 m' i j) ->
  m = m'.
Proof.
  intros Hm Hm' Hget.
  assert (Hr : length m = r) by apply Hm.
  assert (Hr' : length m' = r) by apply Hm'.
  apply (nth_ext m m' [] []); [congruence|].
  intros i Hi. rewrite Hr in Hi.
  pose proof (is_matrix_row r c m i Hm Hi) as Hc.
  pose proof (is_matrix_row r c m' i Hm' Hi) as Hc'.
  apply (nth_ext _ _ 0 0); [congruence|].
  intros j Hj. rewrite Hc in Hj. now apply Hget.
Qed.

Lemma is_matrix_table (r c : nat) (g : nat -> nat -> R) :
  is_matrix r c (table r c g).
Proof.
  unfold table. split.
  - now rewrite length_map, length_seq.
  - apply Forall_forall. intros row Hin.
    apply in_map_iff in Hin. destruct Hin as [i [<- _]].
    now rewrite length_map, length_seq.
Qed.

Lemma nth_map_seq {A : Type} (g : nat -> A) (n i : nat) (d : A) :
  (i < n)%nat -> nth i (map g (seq 0 n)) d = g i.
Proof.
  intros Hi.
  rewrite (nth_indep _ d (g 0%nat)) by now rewrite length_map, length_seq.
  rewrite (map_nth g (seq 0 n) 0%nat i), seq_nth; auto.
Qed.

Lemma get2_table (r c : nat) (g : nat -> nat -> R) (i j : nat) :
  (i < r)%nat -> (j < c)%nat -> get2 (table r c g) i j = g i j.
Proof.
  intros Hi Hj. unfold get2, table.
  rewrite (nth_map_seq (fun i => map (fun j => g i j) (seq 0 c))) by auto.
  now rewrite nth_map_seq.
Qed.

Lemma table_get2 (r c : nat) (m : matrix) :
  is_matrix r c m -> m = table r c (get2 m).
Proof.
  intros Hm. apply (matrix_ext r c); auto using is_matrix_table.
  intros i j Hi Hj. now rewrite get2_table.
Qed.

Lemma is_matrix_zeros (r c : nat) : is_matrix r c (zeros r c).
Proof.
  unfold zeros. split.
  - apply repeat_length.
  - apply Forall_forall. intros row Hin.
    apply repeat_spec in Hin. subst. apply repeat_length.
Qed.

Lemma get2_zeros (r c i j : nat) : get2 (zeros r c) i j = 0.
Proof.
  unfold get2, zeros.
  destruct (Nat.lt_ge_cases i r) as [Hi|Hi].
  - rewrite nth_repeat_lt by auto.
    destruct (Nat.lt_ge_cases j c) as [Hj|Hj].
    + now rewrite nth_repeat_lt.
    + apply nth_overflow. now rewrite repeat_length.
  - rewrite (nth_overflow (repeat (repeat 0 c) r) [])
      by now rewrite repeat_length.
    now destruct j.
Qed.

Lemma is_matrix_set2 (r c : nat) (m : matrix) (i j : nat) (x : R) :
  is_matrix r c m -> is_matrix r c (set2 m i j x).
Proof.
  intros Hm. unfold set2.
  apply is_matrix_intro.
  - rewrite length_upd. apply Hm.
  - intros k Hk. destruct (Nat.eq_dec k i) as [->|Hne].
    + rewrite nth_upd_eq by (destruct Hm; lia).
      rewrite length_upd. now apply (is_matrix_row r c).
    + rewrite nth_upd_ne by auto. now apply (is_matrix_row r c).
Qed.

Lemma get2_set2_eq (r c : nat) (m : matrix) (i j : nat) (x : R) :
  is_matrix r c m -> (i < r)%nat -> (j < c)%nat ->
  get2 (set2 m i j x) i j = x.
Proof.
  intros Hm Hi Hj. unfold get2, set2.
  rewrite nth_upd_eq by (destruct Hm; lia).
  apply nth_upd_eq. now rewrite (is_matrix_row r c).
Qed.

Lemma get2_set2_ne (m : matrix) (i j i' j' : nat) (x : R) :
  (i', j') <> (i, j) -> get2 (set2 m i j x) i' j' = get2 m i' j'.
Proof.
  intros Hne. unfold get2, set2.
  destruct (Nat.eq_dec i' i) as [->|Hi].
  - destruct (Nat.lt_ge_cases i (length m)) as [Hlt|Hge].
    + rewrite nth_upd_eq by auto. apply nth_upd_ne. congruence.
    + rewrite !(nth_overflow _ []); rewrite ?length_upd; auto.
  - now rewrite nth_upd_ne.
Qed.

(** ** Runs of assignments *)

Lemma fold_left_ext {A B : Type} (g h : A -> B -> A) (l : list B) (a : A) :
  (forall a' x, g a' x = h a' x) -> fold_left g l a = fold_left h l a.
Proof.
  intros E. revert a; induction l as [|x l IH]; intros a; simpl; auto.
  now rewrite E, IH.
Qed.

Lemma fold_left_map {A B C : Type} (g : A -> C -> A) (h : B -> C)
  (l : list B) (a : A) :
  fold_left g (map h l) a = fold_left (fun a' x => g a' (h x)) l a.
Proof.
  revert a; induction l as [|x l IH]; intros a; simpl; auto.
Qed.

Lemma fold_left_flat_map {A B C : Type} (g : A -> C -> A) (h : B -> list C)
  (l : list B) (a : A) :
  fold_left g (flat_map h l) a = fold_left (fun a' x => fold_left g (h x) a') l a.
Proof.
  revert a; induction l as [|x l IH]; intros a; simpl; auto.
  now rewrite fold_left_app, IH.
Qed.

Lemma assign_snoc (m : matrix) (asg : list (nat * nat * R)) (i j : nat) (x : R) :
  assign m (asg ++ [(i, j, x)]) = set2 (assign m asg) i j x.
Proof.
  unfold assign. now rewrite fold_left_app.
Qed.

Lemma is_matrix_assign (r c : nat) (asg : list (nat * nat * R)) (m : matrix) :
  is_matrix r c m -> is_matrix r c (assign m asg).
Proof.
  induction asg as [|[[i j] x] asg IH] using rev_ind; intros Hm; auto.
  rewrite assign_snoc. now apply is_matrix_set2, IH.
Qed.

(** Reading a cell after a run of assignments whose values are a function
    [v] of the cell: an assigned cell holds [v], any other cell is kept. *)
Lemma get2_assign (r c : nat) (v : nat -> nat -> R)
  (asg : list (nat * nat * R)) (m : matrix) (i j : nat) :
  is_matrix r c m ->
  (forall i' j' x, In (i', j', x) asg ->
                   (i' < r)%nat /\ (j' < c)%nat /\ x = v i' j') ->
  (In (i, j, v i j) asg -> get2 (assign m asg) i j = v i j) /\
  ((forall x, ~ In (i, j, x) asg) -> get2 (assign m asg) i j = get2 m i j).
Proof.
  intros Hm.
  induction asg as [|[[i0 j0] x0] asg IH] using rev_ind; intros Hv.
  - split; [intros []| reflexivity].
  - assert (Hv' : forall i' j' x, In (i', j', x) asg ->
                     (i' < r)%nat /\ (j' < c)%nat /\ x = v i' j').
    { intros i' j' x Hin. apply Hv, in_or_app. now left. }
    destruct (IH Hv') as [IH1 IH2].
    destruct (Hv i0 j0 x0) as (Hi0 & Hj0 & Hx0).
    { apply in_or_app. right. now left. }
    rewrite assign_snoc.
    assert (Hma : is_matrix r c (assign m asg)) by now apply is_matrix_assign.
    split.
    + intros Hin.
      destruct (Nat.eq_dec i i0) as [->|Hi]; [destruct (Nat.eq_dec j j0) as [->|Hj]|].
      * rewrite (get2_set2_eq r c); auto.
      * rewrite get2_set2_ne by congruence.
        apply IH1. apply in_app_or in Hin. destruct Hin as [Hin|[Hin|[]]]; auto.
        congruence.
      * rewrite get2_set2_ne by congruence.
        apply IH1. apply in_app_or in Hin. destruct Hin as [Hin|[Hin|[]]]; auto.
        congruence.
    + intros Hnot.
      assert (Hne : (i, j) <> (i0, j0)).
      { intros E. injection E as Ei Ej. subst i j.
        apply (Hnot x0), in_or_app. right. now left. }
      rewrite get2_set2_ne by auto.
      apply IH2. intros x Hin. apply (Hnot x), in_or_app. now left.
Qed.

Lemma in_lower_cells (n : nat) (v : nat -> nat -> R) (i j : nat) (x : R) :
  In (i, j, x) (lower_cells n v) <-> (i < n)%nat /\ (j <= i)%nat /\ x = v i j.
Proof.
  unfold lower_cells. rewrite in_flat_map. split.
  - intros [i' [Hi' Hin]]. apply in_map_iff in Hin.
    destruct Hin as [j' [E Hj']]. inversion E; subst.
    apply in_seq in Hi'. apply in_seq in Hj'. repeat split; lia.
  - intros (Hi & Hj & ->). exists i. split.
    + apply in_seq. lia.
    + apply in_map_iff. exists j. split; auto. apply in_seq. lia.
Qed.

(** ** TDMatrix *)

Lemma TDMatrix_assign (t : vector) :
  TDMatrix t =
  assign (zeros (length t) (length t))
         (lower_cells (length t) (fun i j => nth i t 0 - nth j t 0)).
Proof.
  unfold TDMatrix, assign, lower_cells.
  rewrite fold_left_flat_map.
  apply fold_left_ext. intros dt i.
  now rewrite fold_left_map.
Qed.

Lemma is_matrix_TDMatrix (t : vector) :
  is_matrix (length t) (length t) (TDMatrix t).
Proof.
  rewrite TDMatrix_assign. apply is_matrix_assign, is_matrix_zeros.
Qed.

Lemma get2_TDMatrix (t : vector) (i j : nat) :
  (i < length t)%nat -> (j < length t)%nat ->
  get2 (TDMatrix t) i j = if (j <=? i)%nat then nth i t 0 - nth j t 0 else 0.
Proof.
  intros Hi Hj. rewrite TDMatrix_assign.
  destruct (get2_assign (length t) (length t)
              (fun i j => nth i t 0 - nth j t 0)
              (lower_cells (length t) (fun i j => nth i t 0 - nth j t 0))
              (zeros (length t) (length t)) i j) as [H1 H2].
  - apply is_matrix_zeros.
  - intros i' j' x Hin. apply in_lower_cells in Hin.
    destruct Hin as (Hi' & Hj' & Hx). repeat split; auto; lia.
  - destruct (Nat.leb_spec j i) as [Hle|Hgt].
    + apply H1. apply in_lower_cells. auto.
    + rewrite H2, get2_zeros; auto.
      intros x Hin. apply in_lower_cells in Hin. lia.
Qed.

(** C6. For a timestamp sequence [t] of length [n], [TDMatrix t] is an [n]
    by [n] array; its entry [(i, j)] is the plain difference [t[i] - t[j]]
    when [j <= i] and is [0] when [j > i]. *)
Theorem TDMatrix_entries (t : vector) (i j : nat) :
  (i < length t)%nat -> (j < length t)%nat ->
  is_matrix (length t) (length t) (TDMatrix t) /\
  ((j <= i)%nat -> get2 (TDMatrix t) i j = nth i t 0 - nth j t 0) /\
  ((i < j)%nat -> get2 (TDMatrix t) i j = 0).
Proof.
  intros Hi Hj. split; [apply is_matrix_TDMatrix|].
  rewrite get2_TDMatrix by auto.
  split; intros H.
  - apply Nat.leb_le in H. now rewrite H.
  - apply Nat.leb_gt in H. now rewrite H.
Qed.

Lemma TDMatrix_entries_witness :
  get2 (TDMatrix [0; 1; 2; 10]) 3 1 = 10 - 1 /\
  get2 (TDMatrix [0; 1; 2; 10]) 1 3 = 0.
Proof.
  split.
  - apply (TDMatrix_entries [0; 1; 2; 10] 3 1); simpl; lia.
  - apply (TDMatrix_entries [0; 1; 2; 10] 1 3); simpl; lia.
Defined.

(** ** SparseTDMatrix *)

Lemma combine_snoc {A B : Type} (l : list A) (l' : list B) (x : A) (y : B) :
  length l = length l' -> combine (l ++ [x]) (l' ++ [y]) = combine l l' ++ [(x, y)].
Proof.
  revert l'; induction l as [|a l IH]; intros [|b l'] H; simpl in *;
    try discriminate; auto.
  rewrite IH; auto.
Qed.

Lemma coo_append_spec (acc : coo) (i j : nat) (td : R) :
  coo_wf acc ->
  coo_wf (coo_append acc i j td) /\
  coo_entries (coo_append acc i j td) = coo_entries acc ++ [(i, j, td)].
Proof.
  destruct acc as [[row col] data]. unfold coo_wf, coo_entries, coo_append.
  simpl. intros [H1 H2]. split.
  - rewrite !length_app. simpl. lia.
  - rewrite !combine_snoc; auto.
    rewrite length_combine. lia.
Qed.

Lemma sparse_fold (max_td : R) (l : list (nat * nat * R)) (acc : coo) :
  coo_wf acc ->
  let acc' :=
    fold_left (fun a e => if Rge_dec (snd e) max_td
                          then coo_append a (fst (fst e)) (snd (fst e)) (snd e)
                          else a) l acc in
  coo_wf acc' /\ coo_entries acc' = coo_entries acc ++ filter (keeps max_td) l.
Proof.
  revert acc; induction l as [|[[i j] x] l IH]; intros acc Hwf; simpl.
  - split; auto. now rewrite app_nil_r.
  - unfold keeps at 1. simpl. destruct (Rge_dec x max_td) as [Hge|Hlt].
    + destruct (coo_append_spec acc i j x Hwf) as [Hwf' He].
      destruct (IH _ Hwf') as [IH1 IH2]. split; auto.
      rewrite IH2, He, <- app_assoc. reflexivity.
    + apply IH; auto.
Qed.

Lemma SparseTDMatrix_entries (t : vector) (max_td : R) :
  let m := SparseTDMatrix t max_td in
  csr_shape m = (length t, length t) /\
  length (csr_row m) = length (csr_col m) /\
  length (csr_row m) = length (csr_data m) /\
  entries m =
  filter (keeps max_td)
         (lower_cells (length t) (fun i j => nth i t 0 - nth j t 0)).
Proof.
  pose (v := fun i j => nth i t 0 - nth j t 0).
  destruct (sparse_fold max_td (lower_cells (length t) v) ([], [], []))
    as [[Hw1 Hw2] He].
  { split; reflexivity. }
  assert (E : fold_left
                (fun acc i =>
                   fold_left
                     (fun acc' j =>
                        if Rge_dec (nth i t 0 - nth j t 0) max_td
                        then coo_append acc' i j (nth i t 0 - nth j t 0)
                        else acc')
                     (seq 0 (i + 1)) acc)
                (seq 0 (length t)) (([], [], []) : coo) =
              fold_left (fun a e => if Rge_dec (snd e) max_td
                          then coo_append a (fst (fst e)) (snd (fst e)) (snd e)
                          else a) (lower_cells (length t) v) ([], [], [])).
  { unfold lower_cells. rewrite fold_left_flat_map.
    apply fold_left_ext. intros a i. now rewrite fold_left_map. }
  unfold SparseTDMatrix, entries, stored. cbv zeta.
  cbn [csr_shape csr_row csr_col csr_data].
  rewrite E. repeat split; auto.
Qed.

Lemma in_stored_entries (m : csr_matrix) (i j : nat) :
  length (csr_row m) = length (csr_col m) ->
  length (csr_row m) = length (csr_data m) ->
  In (i, j) (stored m) <-> exists x, In (i, j, x) (entries m).
Proof.
  intros H1 H2. unfold entries.
  assert (H : length (stored m) = length (csr_data m)).
  { unfold stored. rewrite length_combine. lia. }
  revert H. generalize (stored m) (csr_data m). clear.
  intros l; induction l as [|c l IH]; intros [|d data] H; simpl in *;
    try discriminate.
  - split; [intros []|intros [x []]].
  - split.
    + intros [->|Hin].
      * exists d. now left.
      * apply (IH data) in Hin; [|lia]. destruct Hin as [x Hx]. exists x. now right.
    + intros [x [E|Hin]].
      * left. congruence.
      * right. apply (IH data); [lia|]. now exists x.
Qed.

Lemma SparseTDMatrix_example :
  entries (SparseTDMatrix [0; 1; 2; 10] 5) =
  [(3%nat, 0%nat, 10 - 0); (3%nat, 1%nat, 10 - 1); (3%nat, 2%nat, 10 - 2)].
Proof.
  destruct (SparseTDMatrix_entries [0; 1; 2; 10] 5) as (_ & _ & _ & ->).
  unfold lower_cells, keeps. simpl.
  repeat match goal with
         | |- context [Rge_dec ?x ?y] =>
             destruct (Rge_dec x y); [try (exfalso; lra)|try (exfalso; lra)]
         end.
  reflexivity.
Qed.

(** C7. For a non-negative threshold [max_td], the positions stored by
    [SparseTDMatrix t max_td] are exactly the pairs [(i, j)] with
    [j <= i < n] and [t[i] - t[j] >= max_td], each stored with the value
    [t[i] - t[j]]; for [t = [0, 1, 2, 10]] and [max_td = 5] the stored
    positions are [(3,0)], [(3,1)], [(3,2)] and nothing else. *)
Theorem SparseTDMatrix_stored (t : vector) (max_td : R) :
  0 <= max_td ->
  (forall i j x,
      In (i, j, x) (entries (SparseTDMatrix t max_td)) <->
      (i < length t)%nat /\ (j <= i)%nat /\
      nth i t 0 - nth j t 0 >= max_td /\ x = nth i t 0 - nth j t 0) /\
  (forall i j,
      In (i, j) (stored (SparseTDMatrix t max_td)) <->
      (i < length t)%nat /\ (j <= i)%nat /\ nth i t 0 - nth j t 0 >= max_td) /\
  entries (SparseTDMatrix [0; 1; 2; 10] 5) = [(3%nat, 0%nat, 10 - 0); (3%nat, 1%nat, 10 - 1); (3%nat, 2%nat, 10 - 2)] /\
  stored (SparseTDMatrix [0; 1; 2; 10] 5) = [(3, 0); (3, 1); (3, 2)]%nat.
Proof.
  intros _.
  assert (Hin : forall i j x,
      In (i, j, x) (entries (SparseTDMatrix t max_td)) <->
      (i < length t)%nat /\ (j <= i)%nat /\
      nth i t 0 - nth j t 0 >= max_td /\ x = nth i t 0 - nth j t 0).
  { intros i j x.
    destruct (SparseTDMatrix_entries t max_td) as (_ & _ & _ & ->).
    rewrite filter_In, in_lower_cells. unfold keeps. simpl.
    destruct (Rge_dec x max_td) as [Hge|Hlt]; split.
    - intros [(Hi & Hj & ->) _]. auto.
    - intros (Hi & Hj & _ & ->). auto.
    - intros [_ H]. discriminate.
    - intros (Hi & Hj & Hge & ->). contradiction. }
  split; [exact Hin|]. split.
  - intros i j.
    destruct (SparseTDMatrix_entries t max_td) as (_ & H1 & H2 & _).
    rewrite in_stored_entries by auto. split.
    + intros [x Hx]. apply Hin in Hx. tauto.
    + intros (Hi & Hj & Hge). exists (nth i t 0 - nth j t 0).
      apply Hin. auto.
  - pose proof SparseTDMatrix_example as E.
    split; [exact E|].
    pose proof (SparseTDMatrix_entries [0; 1; 2; 10] 5) as (_ & H1 & H2 & _).
    revert E H1 H2. unfold entries, stored.
    generalize (csr_row (SparseTDMatrix [0; 1; 2; 10] 5))
               (csr_col (SparseTDMatrix [0; 1; 2; 10] 5))
               (csr_data (SparseTDMatrix [0; 1; 2; 10] 5)).
    intros row col data E H1 H2.
    destruct row as [|r1 [|r2 [|r3 [|r4 row]]]];
      destruct col as [|c1 [|c2 [|c3 [|c4 col]]]]; simpl in H1; try discriminate;
      destruct data as [|d1 [|d2 [|d3 [|d4 data]]]]; simpl in H2; try discriminate;
      simpl in E; try discriminate; simpl; injection E; intros; subst;
      reflexivity.
Qed.

Lemma SparseTDMatrix_stored_witness :
  In (3, 1)%nat (stored (SparseTDMatrix [0; 1; 2; 10] 5)) /\
  ~ In (2, 0)%nat (stored (SparseTDMatrix [0; 1; 2; 10] 5)).
Proof.
  assert (H5 : 0 <= 5) by lra.
  destruct (SparseTDMatrix_stored [0; 1; 2; 10] 5 H5) as (_ & Hs & _).
  split.
  - apply Hs. simpl. repeat split; try lia. lra.
  - intros Hin. apply Hs in Hin. simpl in Hin. lra.
Defined.

(** ** Indexed assignment *)

Lemma combine_fst_snd {A B : Type} (l : list (A * B)) :
  combine (map fst l) (map snd l) = l.
Proof.
  induction l as [|[x y] l IH]; simpl; congruence.
Qed.

Lemma diag_indices_cells (n : nat) :
  diag_indices n = [map fst (diag_cells n); map snd (diag_cells n)].
Proof.
  unfold diag_indices, diag_cells. rewrite !map_map. simpl.
  now rewrite map_id.
Qed.

Lemma in_triu_cells (n i j : nat) :
  In (i, j) (triu_cells n) <-> (i < n)%nat /\ (i <= j)%nat /\ (j < n)%nat.
Proof.
  unfold triu_cells. rewrite in_flat_map. split.
  - intros [i' [Hi' Hin]]. apply in_map_iff in Hin.
    destruct Hin as [j' [E Hj']]. inversion E; subst.
    apply in_seq in Hi'. apply in_seq in Hj'. lia.
  - intros (Hi & Hij & Hj). exists i. split.
    + apply in_seq. lia.
    + apply in_map_iff. exists j. split; auto. apply in_seq. lia.
Qed.

Lemma in_diag_cells (n i j : nat) :
  In (i, j) (diag_cells n) <-> (i < n)%nat /\ j = i.
Proof.
  unfold diag_cells. rewrite in_map_iff. split.
  - intros [k [E Hk]]. inversion E; subst. apply in_seq in Hk. lia.
  - intros [Hi ->]. exists i. split; auto. apply in_seq. lia.
Qed.

Lemma forallb_in_bounds (r c : nat) (m : matrix) (cells : list (nat * nat)) :
  is_matrix r c m ->
  (forall p, In p cells -> (fst p < r)%nat /\ (snd p < c)%nat) ->
  forallb (in_bounds m) cells = true.
Proof.
  intros Hm Hc. apply forallb_forall. intros p Hin.
  destruct (Hc p Hin) as [Hi Hj]. unfold in_bounds.
  rewrite (is_matrix_row r c m (fst p) Hm Hi).
  destruct Hm as [Hr _]. rewrite Hr.
  apply andb_true_iff. split; now apply Nat.ltb_lt.
Qed.

(** Inside the array, [m[rows, cols] = x] is the run of assignments of [x]
    to the addressed cells. *)
Lemma setitem2_cells (r c : nat) (m : matrix) (cells : list (nat * nat)) (x : R) :
  is_matrix r c m ->
  (forall p, In p cells -> (fst p < r)%nat /\ (snd p < c)%nat) ->
  setitem2 m [map fst cells; map snd cells] x = Ok (assign m (fill x cells)).
Proof.
  intros Hm Hc. unfold setitem2.
  rewrite !length_map, Nat.eqb_refl. simpl negb. cbv iota.
  rewrite combine_fst_snd.
  now rewrite (forallb_in_bounds r c).
Qed.

Lemma setitem2_arr_cells (r c : nat) (m : matrix) (cells : list (nat * nat))
  (vals : vector) :
  is_matrix r c m ->
  (forall p, In p cells -> (fst p < r)%nat /\ (snd p < c)%nat) ->
  length vals = length cells ->
  setitem2_arr m [map fst cells; map snd cells] vals =
  Ok (assign m (map (fun cv => (fst (fst cv), snd (fst cv), snd cv))
                    (combine cells vals))).
Proof.
  intros Hm Hc Hl. unfold setitem2_arr.
  rewrite !length_map, Nat.eqb_refl. simpl negb. cbv iota.
  rewrite Hl, Nat.eqb_refl. simpl negb. cbv iota.
  rewrite combine_fst_snd.
  now rewrite (forallb_in_bounds r c).
Qed.

Lemma in_fill (x y : R) (cells : list (nat * nat)) (i j : nat) :
  In (i, j, y) (fill x cells) <-> In (i, j) cells /\ y = x.
Proof.
  unfold fill. rewrite in_map_iff. split.
  - intros [[i' j'] [E Hin]]. simpl in E. inversion E; subst. auto.
  - intros [Hin ->]. exists (i, j). auto.
Qed.

Lemma get2_fill_in (r c : nat) (m : matrix) (cells : list (nat * nat))
  (x : R) (i j : nat) :
  is_matrix r c m ->
  (forall p, In p cells -> (fst p < r)%nat /\ (snd p < c)%nat) ->
  In (i, j) cells -> get2 (assign m (fill x cells)) i j = x.
Proof.
  intros Hm Hc Hin.
  destruct (get2_assign r c (fun _ _ => x) (fill x cells) m i j Hm) as [H1 _].
  - intros i' j' y Hy. apply in_fill in Hy. destruct Hy as [Hy ->].
    destruct (Hc _ Hy). auto.
  - apply H1. apply in_fill. auto.
Qed.

Lemma get2_fill_out (r c : nat) (m : matrix) (cells : list (nat * nat))
  (x : R) (i j : nat) :
  is_matrix r c m ->
  (forall p, In p cells -> (fst p < r)%nat /\ (snd p < c)%nat) ->
  ~ In (i, j) cells -> get2 (assign m (fill x cells)) i j = get2 m i j.
Proof.
  intros Hm Hc Hout.
  destruct (get2_assign r c (fun _ _ => x) (fill x cells) m i j Hm) as [_ H2].
  - intros i' j' y Hy. apply in_fill in Hy. destruct Hy as [Hy ->].
    destruct (Hc _ Hy). auto.
  - apply H2. intros y Hy. apply in_fill in Hy. tauto.
Qed.

Lemma triu_cells_bounds (n : nat) (p : nat * nat) :
  In p (triu_cells n) -> (fst p < n)%nat /\ (snd p < n)%nat.
Proof.
  destruct p as [i j]. intros H. apply in_triu_cells in H. simpl. lia.
Qed.

Lemma diag_cells_bounds (n : nat) (p : nat * nat) :
  In p (diag_cells n) -> (fst p < n)%nat /\ (snd p < n)%nat.
Proof.
  destruct p as [i j]. intros H. apply in_diag_cells in H. simpl. lia.
Qed.

Lemma is_matrix_map (r c : nat) (g : R -> R) (m : matrix) :
  is_matrix r c m -> is_matrix r c (map (map g) m).
Proof.
  intros [Hr Hc]. split.
  - now rewrite length_map.
  - apply Forall_forall. intros row Hin. apply in_map_iff in Hin.
    destruct Hin as [row' [<- Hin']]. rewrite length_map.
    rewrite Forall_forall in Hc. now apply Hc.
Qed.

Lemma get2_map (r c : nat) (g : R -> R) (m : matrix) (i j : nat) :
  is_matrix r c m -> (i < r)%nat -> (j < c)%nat ->
  get2 (map (map g) m) i j = g (get2 m i j).
Proof.
  intros Hm Hi Hj. unfold get2.
  change (@nil R) with (map g []) at 1. rewrite map_nth.
  rewrite (nth_indep _ 0 (g 0)).
  - apply map_nth.
  - rewrite length_map. now rewrite (is_matrix_row r c m i).
Qed.

(** ** The E-step in closed form *)

Lemma table_ext (r c : nat) (g h : nat -> nat -> R) :
  (forall i j, (i < r)%nat -> (j < c)%nat -> g i j = h i j) ->
  table r c g = table r c h.
Proof.
  intros E. unfold table. apply map_ext_in. intros i Hi.
  apply map_ext_in. intros j Hj.
  apply in_seq in Hi. apply in_seq in Hj. apply E; lia.
Qed.

Lemma combine_map_same {A B C : Type} (g : A -> B) (h : A -> C) (l : list A) :
  combine (map g l) (map h l) = map (fun x => (g x, h x)) l.
Proof.
  induction l as [|x l IH]; simpl; congruence.
Qed.

Lemma div_rows_table (r c : nat) (g : nat -> nat -> R) :
  div_rows (table r c g) (sum_axis1 (table r c g)) =
  table r c (fun i j => g i j / sum (map (g i) (seq 0 c))).
Proof.
  unfold div_rows, sum_axis1, table.
  rewrite map_map, combine_map_same, map_map.
  apply map_ext. intros i. simpl. now rewrite map_map.
Qed.

Lemma is_matrix_length (r c : nat) (m : matrix) : is_matrix r c m -> length m = r.
Proof. now intros [H _]. Qed.

(** On a square array of time differences the E-step succeeds and returns
    the normalized weights. *)
Lemma StructProbMatrix_table (n : nat) (dt : matrix) (mu a b : R) :
  is_matrix n n dt ->
  StructProbMatrix dt mu a b = Ok (normalized n (raw dt mu a b)).
Proof.
  intros Hdt. unfold StructProbMatrix.
  set (g := fun d => a * exp (- b * d)).
  assert (H0 : is_matrix n n (map (map g) dt)) by now apply is_matrix_map.
  unfold shape0 at 1. rewrite (is_matrix_length n n _ H0).
  unfold triu_indices.
  rewrite (setitem2_cells n n) by (auto using triu_cells_bounds).
  cbn [bind].
  set (p1 := assign (map (map g) dt) (fill 0 (triu_cells n))).
  assert (H1 : is_matrix n n p1) by now apply is_matrix_assign.
  unfold shape0. rewrite (is_matrix_length n n _ H1).
  rewrite diag_indices_cells.
  rewrite (setitem2_cells n n) by (auto using diag_cells_bounds).
  cbn [bind].
  set (p2 := assign p1 (fill mu (diag_cells n))).
  assert (H2 : is_matrix n n p2) by now apply is_matrix_assign.
  assert (E : p2 = table n n (raw dt mu a b)).
  { apply (matrix_ext n n); auto using is_matrix_table.
    intros i j Hi Hj. rewrite get2_table by auto. unfold raw, p2.
    destruct (Nat.eq_dec j i) as [->|Hne].
    - rewrite (get2_fill_in n n); auto using diag_cells_bounds.
      + rewrite Nat.ltb_irrefl, Nat.eqb_refl. reflexivity.
      + apply in_diag_cells. auto.
    - rewrite (get2_fill_out n n); auto using diag_cells_bounds.
      2:{ intros Hin. apply in_diag_cells in Hin. lia. }
      unfold p1.
      destruct (Nat.ltb_spec j i) as [Hlt|Hge].
      + rewrite (get2_fill_out n n); auto using triu_cells_bounds.
        * now rewrite (get2_map n n).
        * intros Hin. apply in_triu_cells in Hin. lia.
      + rewrite (get2_fill_in n n); auto using triu_cells_bounds.
        * apply Nat.eqb_neq in Hne. now rewrite Hne.
        * apply in_triu_cells. lia. }
  rewrite E, div_rows_table. reflexivity.
Qed.

Lemma is_matrix_tile (v : vector) (n : nat) : is_matrix n (length v) (tile v n).
Proof.
  unfold tile. split.
  - apply repeat_length.
  - apply Forall_forall. intros row Hin. apply repeat_spec in Hin. now subst.
Qed.

Lemma get2_tile (v : vector) (n i j : nat) :
  (i < n)%nat -> get2 (tile v n) i j = nth j v 0.
Proof.
  intros Hi. unfold get2, tile. now rewrite nth_repeat_lt.
Qed.

Lemma nth_map_in {A B : Type} (g : A -> B) (l : list A) (k : nat) (d : B) (d' : A) :
  (k < length l)%nat -> nth k (map g l) d = g (nth k l d').
Proof.
  intros Hk. rewrite (nth_indep _ d (g d')) by now rewrite length_map.
  apply map_nth.
Qed.

Lemma combine_diag_vals (g : R -> R) (t : vector) :
  map (fun cv => (fst (fst cv), snd (fst cv), snd cv))
      (combine (diag_cells (length t)) (map g t)) =
  map (fun i => (i, i, g (nth i t 0))) (seq 0 (length t)).
Proof.
  unfold diag_cells.
  apply (nth_ext _ _ (0%nat, 0%nat, 0) (0%nat, 0%nat, 0)).
  - rewrite !length_map, length_combine, !length_map, length_seq. lia.
  - intros k Hk.
    rewrite length_map, length_combine, !length_map, length_seq in Hk.
    assert (Hk' : (k < length t)%nat) by lia.
    rewrite (nth_map_seq (fun i => (i, i, g (nth i t 0)))) by auto.
    rewrite (nth_map_in _ _ _ _ ((0%nat, 0%nat), 0))
      by (rewrite length_combine, !length_map, length_seq; lia).
    rewrite combine_nth by now rewrite !length_map, length_seq.
    rewrite (nth_map_seq (fun i => (i, i))) by auto.
    rewrite (nth_map_in g t k 0 0) by auto.
    reflexivity.
Qed.

(** The time-indexed E-step succeeds and returns its normalized weights. *)
Lemma StructProbMatrixFromTime_table (t : vector) (mu a b : R) :
  StructProbMatrixFromTime t mu a b =
  Ok (normalized (length t) (raw_time t mu a b)).
Proof.
  unfold StructProbMatrixFromTime.
  set (n := length t).
  set (v := map (fun ti => exp (b * ti)) t).
  assert (Hv : length v = n) by (unfold v; now rewrite length_map).
  assert (H0 : is_matrix n n (tile v n)).
  { rewrite <- Hv at 2. apply is_matrix_tile. }
  unfold triu_indices.
  rewrite (setitem2_cells n n) by (auto using triu_cells_bounds).
  cbn [bind].
  set (p1 := assign (tile v n) (fill 0 (triu_cells n))).
  assert (H1 : is_matrix n n p1) by now apply is_matrix_assign.
  rewrite diag_indices_cells.
  rewrite (setitem2_arr_cells n n); auto using diag_cells_bounds.
  2:{ unfold diag_cells. now rewrite !length_map, length_seq. }
  cbn [bind]. change (diag_cells n) with (diag_cells (length t)).
  rewrite (combine_diag_vals (fun ti => mu / a * exp (b * ti)) t). fold n.
  set (asg := map (fun i => (i, i, mu / a * exp (b * nth i t 0))) (seq 0 n)).
  set (p2 := assign p1 asg).
  assert (H2 : is_matrix n n p2) by now apply is_matrix_assign.
  assert (Hin : forall i j x, In (i, j, x) asg <->
                  (i < n)%nat /\ j = i /\ x = mu / a * exp (b * nth i t 0)).
  { intros i j x. unfold asg. rewrite in_map_iff. split.
    - intros [k [E Hk]]. inversion E; subst. apply in_seq in Hk.
      repeat split; auto. lia.
    - intros (Hi & -> & ->). exists i. split; auto. apply in_seq. lia. }
  assert (E : p2 = table n n (raw_time t mu a b)).
  { apply (matrix_ext n n); auto using is_matrix_table.
    intros i j Hi Hj. rewrite get2_table by auto. unfold raw_time.
    destruct (get2_assign n n
                (fun i j => mu / a * exp (b * nth i t 0)) asg p1 i j H1)
      as [G1 G2].
    { intros i' j' x Hx. apply Hin in Hx. destruct Hx as (Hi' & -> & ->).
      auto. }
    destruct (Nat.eq_dec j i) as [->|Hne].
    - rewrite Nat.ltb_irrefl, Nat.eqb_refl. apply G1. apply Hin. auto.
    - unfold p2. rewrite G2.
      2:{ intros x Hx. apply Hin in Hx. lia. }
      unfold p1.
      destruct (Nat.ltb_spec j i) as [Hlt|Hge].
      + rewrite (get2_fill_out n n); auto using triu_cells_bounds.
        * rewrite get2_tile by auto. unfold v.
          rewrite (nth_indep _ 0 (exp (b * 0)))
            by now rewrite length_map.
          now rewrite (map_nth (fun ti => exp (b * ti))).
        * intros Hc. apply in_triu_cells in Hc. lia.
      + rewrite (get2_fill_in n n); auto using triu_cells_bounds.
        * apply Nat.eqb_neq in Hne. now rewrite Hne.
        * apply in_triu_cells. lia. }
  fold p2. rewrite E, div_rows_table. reflexivity.
Qed.

(** ** Sums *)

Lemma sum_map_scale {A : Type} (c : R) (g : A -> R) (l : list A) :
  sum (map (fun x => c * g x) l) = c * sum (map g l).
Proof.
  induction l as [|x l IH]; simpl; [lra|]. rewrite IH. lra.
Qed.


Lemma sum_map_nonneg {A : Type} (g : A -> R) (l : list A) :
  (forall x, In x l -> 0 <= g x) -> 0 <= sum (map g l).
Proof.
  induction l as [|x l IH]; intros H; simpl; [lra|].
  assert (0 <= g x) by (apply H; now left).
  assert (0 <= sum (map g l)) by (apply IH; intros y Hy; apply H; now right).
  lra.
Qed.

Lemma sum_map_ge {A : Type} (g : A -> R) (l : list A) (y : A) :
  (forall x, In x l -> 0 <= g x) -> In y l -> g y <= sum (map g l).
Proof.
  induction l as [|x l IH]; intros H Hy; simpl; [destruct Hy|].
  assert (0 <= g x) by (apply H; now left).
  assert (0 <= sum (map g l))
    by (apply sum_map_nonneg; intros z Hz; apply H; now right).
  destruct Hy as [->|Hy]; [lra|].
  assert (g y <= sum (map g l)) by (apply IH; auto; intros z Hz; apply H; now right).
  lra.
Qed.

Lemma sum_map_zero {A : Type} (g : A -> R) (l : list A) :
  (forall x, In x l -> g x = 0) -> sum (map g l) = 0.
Proof.
  induction l as [|x l IH]; intros H; simpl; [reflexivity|].
  rewrite (H x) by now left. rewrite IH; [lra|].
  intros y Hy. apply H. now right.
Qed.

(** ** The responsibility matrix *)

Lemma raw_nonneg (dt : matrix) (mu a b : R) (i j : nat) :
  0 < mu -> 0 < a -> 0 <= raw dt mu a b i j.
Proof.
  intros Hmu Ha. unfold raw.
  destruct (j <? i)%nat.
  - pose proof (exp_pos (- b * get2 dt i j)). nra.
  - destruct (j =? i)%nat; lra.
Qed.

Lemma raw_row_sum_pos (n : nat) (dt : matrix) (mu a b : R) (i : nat) :
  0 < mu -> 0 < a -> (i < n)%nat ->
  0 < sum (map (raw dt mu a b i) (seq 0 n)).
Proof.
  intros Hmu Ha Hi.
  assert (H : raw dt mu a b i i <= sum (map (raw dt mu a b i) (seq 0 n))).
  { apply sum_map_ge.
    - intros j _. now apply raw_nonneg.
    - apply in_seq. lia. }
  unfold raw at 1 in H. rewrite Nat.ltb_irrefl, Nat.eqb_refl in H. lra.
Qed.





(** ** The two E-steps agree *)

(** Row [i] of the dense weights is the row of the time-indexed weights
    scaled by [a * exp (- b * t_i)]. *)
Lemma raw_scaled (t : vector) (mu a b : R) (i j : nat) :
  a <> 0 -> (i < length t)%nat -> (j < length t)%nat ->
  raw (TDMatrix t) mu a b i j =
  a * exp (- b * nth i t 0) * raw_time t mu a b i j.
Proof.
  intros Ha Hi Hj. unfold raw, raw_time.
  destruct (Nat.ltb_spec j i) as [Hlt|Hge].
  - rewrite get2_TDMatrix by auto.
    destruct (Nat.leb_spec j i); [|lia].
    replace (- b * (nth i t 0 - nth j t 0))
      with (- b * nth i t 0 + b * nth j t 0) by ring.
    rewrite exp_plus. ring.
  - destruct (Nat.eqb_spec j i) as [->|Hne].
    + replace (a * exp (- b * nth i t 0) * (mu / a * exp (b * nth i t 0)))
        with (mu * (exp (- b * nth i t 0) * exp (b * nth i t 0)))
        by (field; exact Ha).
      rewrite <- exp_plus.
      replace (- b * nth i t 0 + b * nth i t 0) with 0 by ring.
      rewrite exp_0. ring.
    + ring.
Qed.

Lemma normalized_scaled (n : nat) (w w' : nat -> nat -> R) (c : nat -> R) :
  (forall i, (i < n)%nat -> c i <> 0) ->
  (forall i j, (i < n)%nat -> (j < n)%nat -> w i j = c i * w' i j) ->
  normalized n w = normalized n w'.
Proof.
  intros Hc Hw. unfold normalized. apply table_ext. intros i j Hi Hj.
  assert (Es : sum (map (w i) (seq 0 n)) = c i * sum (map (w' i) (seq 0 n))).
  { rewrite <- sum_map_scale. f_equal. apply map_ext_in.
    intros k Hk. apply in_seq in Hk. apply Hw; lia. }
  rewrite Es, Hw by auto.
  unfold Rdiv. rewrite Rinv_mult.
  replace (c i * w' i j * (/ c i * / sum (map (w' i) (seq 0 n))))
    with (c i * / c i * (w' i j * / sum (map (w' i) (seq 0 n)))) by ring.
  rewrite Rinv_r by now apply Hc. ring.
Qed.

(** C9. For strictly increasing [t] and positive [mu], [a], [b], over the
    reals [StructProbMatrixFromTime t mu a b] and
    [StructProbMatrix (TDMatrix t) mu a b] return the same array: the common
    factor [a * exp (- b * t_i)] of row [i] cancels in the normalization. *)
Theorem StructProbMatrixFromTime_agrees (t : vector) (mu a b : R) :
  increasing t -> 0 < mu -> 0 < a -> 0 < b ->
  exists p,
    StructProbMatrixFromTime t mu a b = Ok p /\
    StructProbMatrix (TDMatrix t) mu a b = Ok p.
Proof.
  intros _ Hmu Ha _.
  exists (normalized (length t) (raw_time t mu a b)). split.
  - apply StructProbMatrixFromTime_table.
  - rewrite (StructProbMatrix_table (length t)) by apply is_matrix_TDMatrix.
    f_equal.
    apply (normalized_scaled _ _ _ (fun i => a * exp (- b * nth i t 0))).
    + intros i _. pose proof (exp_pos (- b * nth i t 0)). nra.
    + intros i j Hi Hj. apply raw_scaled; auto. lra.
Qed.

Lemma StructProbMatrixFromTime_agrees_witness :
  exists p,
    StructProbMatrixFromTime [0; 1; 2; 10] (9 / 10) (8 / 10) (5 / 10) = Ok p /\
    StructProbMatrix (TDMatrix [0; 1; 2; 10]) (9 / 10) (8 / 10) (5 / 10) = Ok p.
Proof.
  apply (StructProbMatrixFromTime_agrees [0; 1; 2; 10]).
  - simpl. repeat split; lra.
  - lra.
  - lra.
  - lra.
Defined.

(** ** The sparse E-step *)

(** C10. [SparseStructProbMatrix] fails on every sparse matrix with at
    least one stored entry: [p], computed from the 1-D array [dt.data], is
    indexed with the two index arrays of [np.diag_indices], which is an
    [IndexError]; no responsibility matrix is returned. *)
Theorem SparseStructProbMatrix_fails (dt : csr_matrix) (mu a b : R) :
  csr_data dt <> [] ->
  SparseStructProbMatrix dt mu a b = Raise IndexError /\
  forall p, SparseStructProbMatrix dt mu a b <> Ok p.
Proof.
  intros _.
  assert (E : SparseStructProbMatrix dt mu a b = Raise IndexError) by reflexivity.
  split; [exact E|]. intros p. rewrite E. discriminate.
Qed.

Lemma SparseStructProbMatrix_fails_witness :
  SparseStructProbMatrix (SparseTDMatrix [0; 1; 2; 10] 5) (9 / 10) (8 / 10) (5 / 10)
  = Raise IndexError.
Proof.
  apply (SparseStructProbMatrix_fails (SparseTDMatrix [0; 1; 2; 10] 5)).
  pose proof SparseTDMatrix_example as E. unfold entries in E.
  intros Hd. rewrite Hd in E.
  destruct (stored (SparseTDMatrix [0; 1; 2; 10] 5)); discriminate E.
Defined.

(** ** The surrogate objective *)

Lemma last_nth (t : vector) (x : R) :
  List.last t x = nth (length t) (x :: t) 0.
Proof.
  revert x; induction t as [|y t IH]; intros x; [reflexivity|].
  change (List.last (y :: t) x) with
    (match t with [] => y | _ :: _ => List.last t x end).
  destruct t as [|z t]; [reflexivity|].
  rewrite (IH x). simpl length.
  change (nth (S (S (length t))) (x :: y :: z :: t) 0)
    with (nth (S (length t)) (y :: z :: t) 0).
  change (nth (S (length t)) (x :: z :: t) 0) with (nth (length t) (z :: t) 0).
  reflexivity.
Qed.

Lemma horizon_value (t : vector) :
  t <> [] -> horizon t = Ok (nth (length t - 1) t 0 - nth 0 t 0).
Proof.
  destruct t as [|x t]; [congruence|]. intros _.
  unfold horizon. cbn [last first bind].
  rewrite last_nth.
  replace (length (x :: t) - 1)%nat with (length t) by (simpl; lia).
  reflexivity.
Qed.

Lemma diag_square (n : nat) (p : matrix) :
  is_matrix n n p -> diag p = map (fun i => get2 p i i) (seq 0 n).
Proof.
  intros Hp. unfold diag, shape1.
  destruct n as [|n'].
  - destruct Hp as [Hl _]. now rewrite Hl.
  - rewrite (is_matrix_row (S n') (S n') p 0 Hp) by lia.
    destruct Hp as [Hl _]. now rewrite Hl, Nat.min_id.
Qed.

Lemma mul2_table (r c : nat) (g h : nat -> nat -> R) :
  mul2 (table r c g) (table r c h) = table r c (fun i j => g i j * h i j).
Proof.
  unfold mul2, table.
  rewrite combine_map_same, map_map.
  apply map_ext. intros i. simpl.
  now rewrite combine_map_same, map_map.
Qed.

Lemma mul2_table_l (r c : nat) (p : matrix) (h : nat -> nat -> R) :
  is_matrix r c p ->
  mul2 p (table r c h) = table r c (fun i j => get2 p i j * h i j).
Proof.
  intros Hp. rewrite <- (mul2_table r c (get2 p) h).
  now rewrite <- (table_get2 r c p).
Qed.

Lemma map_table (r c : nat) (g : R -> R) (m : matrix) :
  is_matrix r c m -> map (map g) m = table r c (fun i j => g (get2 m i j)).
Proof.
  intros Hm. apply (matrix_ext r c); auto using is_matrix_map, is_matrix_table.
  intros i j Hi Hj. rewrite (get2_map r c) by auto. now rewrite get2_table.
Qed.

Lemma sum2_table (r c : nat) (g : nat -> nat -> R) :
  sum2 (table r c g) = sum (map (fun i => sum (map (g i) (seq 0 c))) (seq 0 r)).
Proof.
  unfold sum2, table. now rewrite map_map.
Qed.

Lemma sum_app (l1 l2 : vector) : sum (l1 ++ l2) = sum l1 + sum l2.
Proof.
  induction l1 as [|x l1 IH]; simpl; [lra|]. rewrite IH. lra.
Qed.

(** A row that vanishes after column [i] sums over the columns up to [i]. *)
Lemma sum_row_lower (n i : nat) (g : nat -> R) :
  (i < n)%nat -> (forall j, (i < j)%nat -> (j < n)%nat -> g j = 0) ->
  sum (map g (seq 0 n)) = sum (map g (seq 0 (i + 1))).
Proof.
  intros Hi Hz.
  replace n with ((i + 1) + (n - (i + 1)))%nat at 1 by lia.
  rewrite seq_app, map_app, sum_app.
  rewrite (sum_map_zero g (seq (0 + (i + 1)) (n - (i + 1)))); [lra|].
  intros j Hj. apply in_seq in Hj. apply Hz; lia.
Qed.

(** The sum over a whole square array of a product with a lower-triangular
    factor is the sum over the pairs [j <= i]. *)
Lemma sum2_lower (n : nat) (p : matrix) (h : nat -> nat -> R) :
  lower n p ->
  sum2 (table n n (fun i j => get2 p i j * h i j)) =
  tri_sum n (fun i j => get2 p i j * h i j).
Proof.
  intros Hl. rewrite sum2_table. unfold tri_sum. f_equal.
  apply map_ext_in. intros i Hi. apply in_seq in Hi.
  apply sum_row_lower; [lia|].
  intros j Hij Hj. rewrite (Hl i j) by lia. ring.
Qed.

(** C5. [Q] only computes a value from its arguments, and on a
    responsibility matrix [p] (square, zero above the diagonal) with the time
    differences [dt] that value is
    [log mu * S0 - mu * T + sum over j <= i of p_ij * (log a - b * dt_ij)
     + a / b * sum_i (exp (- b * (T - t_i)) - 1)],
    with [S0] the sum of the diagonal of [p] and [T = t[n-1] - t[0]]; the
    diagonal terms [p_ii * log a] are part of the middle sum. *)
Theorem Q_value (mu a b : R) (t : vector) (p dt : matrix) :
  t <> [] ->
  is_matrix (length t) (length t) p ->
  is_matrix (length t) (length t) dt ->
  lower (length t) p ->
  Q mu a b t p dt = Ok (Q_formula mu a b t p dt).
Proof.
  intros Ht Hp Hdt Hl. unfold Q, Q_formula.
  rewrite horizon_value by auto. cbn [bind].
  rewrite (diag_square (length t)) by auto.
  rewrite (map_table (length t) (length t) (fun d => ln a - b * d) dt) by auto.
  rewrite mul2_table_l, sum2_lower by auto.
  reflexivity.
Qed.

Lemma Q_value_witness :
  Q 1 1 1 [0; 1] [[1; 0]; [1 / 2; 1 / 2]] [[0; 0]; [1; 0]] =
  Ok (Q_formula 1 1 1 [0; 1] [[1; 0]; [1 / 2; 1 / 2]] [[0; 0]; [1; 0]]).
Proof.
  apply (Q_value 1 1 1 [0; 1]).
  - discriminate.
  - split; [reflexivity|]. repeat constructor.
  - split; [reflexivity|]. repeat constructor.
  - intros i j Hi Hj Hij. simpl in Hi, Hj.
    assert (Ei : i = 0%nat) by lia. assert (Ej : j = 1%nat) by lia.
    subst. reflexivity.
Defined.

(** ** One pass of the EM loop *)

Lemma normalized_raw_lower (n : nat) (dt : matrix) (mu a b : R) :
  lower n (normalized n (raw dt mu a b)).
Proof.
  intros i j Hi Hj Hij. unfold normalized. rewrite get2_table by auto.
  unfold raw.
  destruct (Nat.ltb_spec j i); [lia|].
  destruct (Nat.eqb_spec j i); [lia|].
  unfold Rdiv. ring.
Qed.

Lemma stat0_square (n : nat) (p : matrix) :
  is_matrix n n p -> stat0 p = sum (map (fun i => get2 p i i) (seq 0 n)).
Proof.
  intros Hp. unfold stat0. now rewrite (diag_square n).
Qed.

Lemma stat2_lower (n : nat) (p dt : matrix) :
  is_matrix n n p -> is_matrix n n dt -> lower n p ->
  stat2 p dt = - tri_sum n (fun i j => get2 p i j * get2 dt i j).
Proof.
  intros Hp Hdt Hl. unfold stat2.
  rewrite (table_get2 n n dt Hdt) at 1.
  rewrite mul2_table_l by auto. now rewrite sum2_lower.
Qed.

(** What a pass returns, read off the code. *)
Lemma iteration_inv (newton : solver) (t : vector) (T : R) (mu a b : R)
  (o : observation) :
  iteration newton t T (TDMatrix t) mu a b = Ok o ->
  let p := normalized (length t) (raw (TDMatrix t) mu a b) in
  StructProbMatrix (TDMatrix t) mu a b = Ok p /\
  newton (f t T (stat0 p) (stat1 t p) (stat2 p (TDMatrix t))) b = Ok (o_b o) /\
  o = mk_obs (stat0 p / T) (o_b o * stat1 t p / survivor t T (o_b o)) (o_b o)
             t p (TDMatrix t) T (stat0 p) (stat1 t p) (stat2 p (TDMatrix t)).
Proof.
  intros H p.
  assert (Ep : StructProbMatrix (TDMatrix t) mu a b = Ok p).
  { apply StructProbMatrix_table, is_matrix_TDMatrix. }
  unfold iteration in H. rewrite Ep in H. cbn [bind] in H.
  unfold maximization in H.
  destruct (newton (f t T (stat0 p) (stat1 t p) (stat2 p (TDMatrix t))) b)
    as [b'|e] eqn:En; cbn [bind] in H; [|discriminate].
  injection H as <-. cbn [o_b]. auto.
Qed.


Lemma EM_log (newton : solver) (t : vector) (niter : nat) (mu0 a0 b0 : R)
  (cb : bool) (o : observation) :
  In o (fst (ExpectationMaximization newton t niter mu0 a0 b0 cb)) ->
  exists T,
    horizon t = Ok T /\
    fst (ExpectationMaximization newton t niter mu0 a0 b0 cb) =
    fst (loop newton niter cb t T (TDMatrix t) mu0 a0 b0 None).
Proof.
  unfold ExpectationMaximization.
  destruct (horizon t) as [T|e]; simpl; [|intros []].
  intros _. now exists T.
Qed.



(** ** A run of the driver on a concrete input

    [t = [0, 1]], [mu0 = 1], [a0 = 0], [b0 = 1]: with no kernel amplitude the
    responsibilities are the identity, [S1 = 0] and [S2 = 0], and the root
    objective is identically 0. *)

Lemma Estep_example : StructProbMatrix (TDMatrix [0; 1]) 1 0 1 = Ok [[1; 0]; [0; 1]].
Proof.
  rewrite (StructProbMatrix_table 2) by apply (is_matrix_TDMatrix [0; 1]).
  f_equal. unfold normalized, table, raw. cbn [map seq Nat.ltb Nat.leb Nat.eqb].
  rewrite !Rmult_0_l.
  repeat f_equal; cbn [sum fold_right]; field_simplify; try lra.
Qed.

Lemma TDMatrix_example : TDMatrix [0; 1] = [[0 - 0; 0]; [1 - 0; 1 - 1]].
Proof. reflexivity. Qed.

Lemma f_degenerate (t : vector) (T S0 x : R) : f t T S0 0 0 x = 0.
Proof. unfold f, Rdiv. ring. Qed.

Lemma stats_example :
  stat0 [[1; 0]; [0; 1]] = 2 /\
  stat1 [0; 1] [[1; 0]; [0; 1]] = 0 /\
  stat2 [[1; 0]; [0; 1]] (TDMatrix [0; 1]) = 0.
Proof.
  assert (E0 : stat0 [[1; 0]; [0; 1]] = 2).
  { unfold stat0, diag, shape1, get2. cbn. lra. }
  split; [exact E0|]. split.
  - unfold stat1. rewrite E0. cbn. lra.
  - rewrite TDMatrix_example. unfold stat2, sum2, mul2. cbn. lra.
Qed.

Lemma maximization_example :
  maximization seed_solver [0; 1] 1 (TDMatrix [0; 1]) [[1; 0]; [0; 1]] 1 =
  Ok (mk_obs 2 0 1 [0; 1] [[1; 0]; [0; 1]] (TDMatrix [0; 1]) 1 2 0 0).
Proof.
  destruct stats_example as (E0 & E1 & E2).
  unfold maximization. rewrite E0, E1, E2.
  unfold seed_solver.
  destruct (Req_dec_T (f [0; 1] 1 2 0 0 1) 0) as [_|Hne].
  2:{ exfalso. apply Hne, f_degenerate. }
  cbn [bind]. f_equal. f_equal; [lra | unfold Rdiv; ring].
Qed.

Lemma EM_example :
  ExpectationMaximization seed_solver [0; 1] 1 1 0 1 true =
  ([mk_obs 2 0 1 [0; 1] [[1; 0]; [0; 1]] (TDMatrix [0; 1]) 1 2 0 0],
   Ok (2, 0, 1, [[1; 0]; [0; 1]])).
Proof.
  assert (HT : horizon [0; 1] = Ok 1).
  { unfold horizon. cbn. f_equal. lra. }
  unfold ExpectationMaximization. rewrite HT.
  cbn [loop]. unfold iteration. rewrite Estep_example. cbn [bind].
  rewrite maximization_example. reflexivity.
Qed.



(** ** The maximization has no guard *)





(** ** The driver checks nothing *)


Lemma iteration_total (newton : solver) (t : vector) (T mu a b : R) :
  (forall g x, exists r, newton g x = Ok r) ->
  exists o, iteration newton t T (TDMatrix t) mu a b = Ok o.
Proof.
  intros Htot. unfold iteration.
  rewrite (StructProbMatrix_table (length t)) by apply is_matrix_TDMatrix.
  cbn [bind]. unfold maximization.
  match goal with
  | |- context [newton ?g b] => destruct (Htot g b) as [r Hr]; rewrite Hr
  end.
  cbn [bind]. eexists. reflexivity.
Qed.




(** * Further properties of the code *)

(** ** Time differences of increasing timestamps *)

Lemma increasing_tail (x : R) (t : vector) : increasing (x :: t) -> increasing t.
Proof.
  destruct t as [|y t]; simpl; tauto.
Qed.

Lemma increasing_head (x : R) (t : vector) (j : nat) :
  increasing (x :: t) -> (j < length t)%nat -> x < nth j t 0.
Proof.
  revert x j; induction t as [|y t IH]; intros x j H Hj.
  - simpl in Hj. lia.
  - destruct H as [Hxy H']. destruct j as [|j]; [exact Hxy|].
    apply Rlt_trans with y; [exact Hxy|].
    apply IH; [exact H'|]. simpl in Hj. lia.
Qed.

Lemma increasing_nth (t : vector) (i j : nat) :
  increasing t -> (i < j)%nat -> (j < length t)%nat -> nth i t 0 < nth j t 0.
Proof.
  revert i j; induction t as [|x t IH]; intros i j H Hij Hj.
  - simpl in Hj. lia.
  - simpl in Hj. destruct j as [|j]; [lia|]. destruct i as [|i].
    + apply (increasing_head x t j H). lia.
    + apply IH; [now apply increasing_tail with x | lia | lia].
Qed.

(** X8. For strictly increasing timestamps no entry of [TDMatrix t] is
    negative: the entries below the diagonal are strictly positive gaps and
    the diagonal is zero. *)
Theorem TDMatrix_gaps (t : vector) (i j : nat) :
  increasing t -> (i < length t)%nat -> (j < length t)%nat ->
  0 <= get2 (TDMatrix t) i j /\
  ((j < i)%nat -> 0 < get2 (TDMatrix t) i j) /\
  get2 (TDMatrix t) i i = 0.
Proof.
  intros Hinc Hi Hj.
  assert (Hd : get2 (TDMatrix t) i i = 0).
  { rewrite get2_TDMatrix by auto. rewrite Nat.leb_refl. ring. }
  assert (Hlt : (j < i)%nat -> 0 < get2 (TDMatrix t) i j).
  { intros Hji. rewrite get2_TDMatrix by auto.
    destruct (Nat.leb_spec j i); [|lia].
    pose proof (increasing_nth t j i Hinc Hji Hi). lra. }
  split; [|split; auto].
  destruct (Nat.lt_trichotomy j i) as [H|[->|H]].
  - left. now apply Hlt.
  - rewrite Hd. lra.
  - rewrite get2_TDMatrix by auto.
    destruct (Nat.leb_spec j i); [lia|lra].
Qed.

Lemma TDMatrix_gaps_witness :
  0 <= get2 (TDMatrix [0; 1; 2; 10]) 3 1 /\
  ((1 < 3)%nat -> 0 < get2 (TDMatrix [0; 1; 2; 10]) 3 1) /\
  get2 (TDMatrix [0; 1; 2; 10]) 3 3 = 0.
Proof.
  apply (TDMatrix_gaps [0; 1; 2; 10] 3 1).
  - simpl. repeat split; lra.
  - simpl. lia.
  - simpl. lia.
Defined.

(** X9. Only gaps matter to the E-step: shifting every timestamp by the
    same amount changes neither [TDMatrix] nor the responsibilities computed
    from it. *)
Theorem TDMatrix_shift (t : vector) (s mu a b : R) :
  TDMatrix (map (fun x => x + s) t) = TDMatrix t /\
  StructProbMatrix (TDMatrix (map (fun x => x + s) t)) mu a b =
  StructProbMatrix (TDMatrix t) mu a b.
Proof.
  assert (E : TDMatrix (map (fun x => x + s) t) = TDMatrix t).
  { apply (matrix_ext (length t) (length t)).
    - rewrite <- (length_map (fun x => x + s) t) at 1 2.
      apply is_matrix_TDMatrix.
    - apply is_matrix_TDMatrix.
    - intros i j Hi Hj.
      rewrite !get2_TDMatrix by (rewrite ?length_map; auto).
      rewrite (nth_map_in (fun x => x + s) t i 0 0) by auto.
      rewrite (nth_map_in (fun x => x + s) t j 0 0) by auto.
      destruct (j <=? i)%nat; ring. }
  split; [exact E|]. now rewrite E.
Qed.

(** ** The E-step on other arguments *)

(** X10. The responsibilities depend on [mu] and [a] only through their
    ratio: scaling both by the same non-zero factor leaves the result of
    [StructProbMatrix] on a square array unchanged. *)
Theorem StructProbMatrix_scale (n : nat) (dt : matrix) (mu a b c : R) :
  is_matrix n n dt -> c <> 0 ->
  StructProbMatrix dt (c * mu) (c * a) b = StructProbMatrix dt mu a b.
Proof.
  intros Hdt Hc. rewrite !(StructProbMatrix_table n) by auto. f_equal.
  apply (normalized_scaled _ _ _ (fun _ => c)); [auto|].
  intros i j _ _. unfold raw.
  destruct (j <? i)%nat; [ring|]. destruct (j =? i)%nat; ring.
Qed.

Lemma StructProbMatrix_scale_witness :
  StructProbMatrix (TDMatrix [0; 1; 2; 10]) (2 * (9 / 10)) (2 * (8 / 10)) (5 / 10) =
  StructProbMatrix (TDMatrix [0; 1; 2; 10]) (9 / 10) (8 / 10) (5 / 10).
Proof.
  apply (StructProbMatrix_scale 4).
  - apply (is_matrix_TDMatrix [0; 1; 2; 10]).
  - lra.
Defined.

Lemma forallb_false {A : Type} (g : A -> bool) (l : list A) (x : A) :
  In x l -> g x = false -> forallb g l = false.
Proof.
  intros Hin Hx. destruct (forallb g l) eqn:E; [|reflexivity].
  rewrite forallb_forall in E. rewrite (E x Hin) in Hx. discriminate.
Qed.

(** X11. On an array with fewer columns than rows [StructProbMatrix]
    raises [IndexError]: [np.triu_indices] is built from the number of rows
    and addresses a column the array does not have. *)
Theorem StructProbMatrix_narrow (r c : nat) (dt : matrix) (mu a b : R) :
  is_matrix r c dt -> (c < r)%nat ->
  StructProbMatrix dt mu a b = Raise IndexError.
Proof.
  intros Hdt Hc. unfold StructProbMatrix.
  set (p := map (map (fun d => a * exp (- b * d))) dt).
  assert (Hp : is_matrix r c p) by now apply is_matrix_map.
  unfold shape0 at 1. rewrite (is_matrix_length r c p Hp).
  unfold triu_indices, setitem2.
  rewrite !length_map, Nat.eqb_refl. simpl negb. cbv iota.
  rewrite combine_fst_snd.
  rewrite (forallb_false (in_bounds p) (triu_cells r) (0%nat, (r - 1)%nat)).
  - reflexivity.
  - apply in_triu_cells. lia.
  - unfold in_bounds. cbn [fst snd].
    rewrite (is_matrix_row r c p 0 Hp) by lia.
    apply andb_false_iff. right. apply Nat.ltb_ge. lia.
Qed.

Lemma StructProbMatrix_narrow_witness :
  StructProbMatrix [[0]; [1]] 1 1 1 = Raise IndexError.
Proof.
  apply (StructProbMatrix_narrow 2 1).
  - split; [reflexivity|]. repeat constructor.
  - lia.
Defined.

Lemma TDMatrix_nonneg (t : vector) (i j : nat) :
  increasing t -> (i < length t)%nat -> (j < length t)%nat ->
  0 <= get2 (TDMatrix t) i j.
Proof.
  intros Hinc Hi Hj. rewrite get2_TDMatrix by auto.
  destruct (Nat.leb_spec j i) as [Hle|Hgt]; [|lra].
  destruct (Nat.eq_dec j i) as [->|Hne]; [lra|].
  pose proof (increasing_nth t j i Hinc ltac:(lia) Hi). lra.
Qed.

(** ** The sparse time differences *)

Lemma in_entries_SparseTDMatrix (t : vector) (max_td : R) (i j : nat) (x : R) :
  In (i, j, x) (entries (SparseTDMatrix t max_td)) <->
  (i < length t)%nat /\ (j <= i)%nat /\
  x = nth i t 0 - nth j t 0 /\ x >= max_td.
Proof.
  destruct (SparseTDMatrix_entries t max_td) as (_ & _ & _ & ->).
  rewrite filter_In, in_lower_cells. unfold keeps. cbn [snd].
  destruct (Rge_dec x max_td) as [Hge|Hlt]; split.
  - intros [(Hi & Hj & Hx) _]. auto.
  - intros (Hi & Hj & Hx & _). auto.
  - intros [_ H]. discriminate.
  - intros (_ & _ & _ & Hge). contradiction.
Qed.

(** X12. The sparse matrix is a part of the dense one: every stored entry
    lies in the lower triangle, is at least the threshold and equals the
    entry of [TDMatrix t] at its position; with a threshold of at most 0 (the
    default is 0) and strictly increasing timestamps every entry of the lower
    triangle, diagonal included, is stored. *)
Theorem SparseTDMatrix_dense (t : vector) (max_td : R) (i j : nat) :
  (i < length t)%nat -> (j <= i)%nat ->
  (forall x, In (i, j, x) (entries (SparseTDMatrix t max_td)) <->
             x = get2 (TDMatrix t) i j /\ x >= max_td) /\
  (increasing t -> max_td <= 0 ->
   In (i, j, get2 (TDMatrix t) i j) (entries (SparseTDMatrix t max_td))).
Proof.
  intros Hi Hj.
  assert (E : get2 (TDMatrix t) i j = nth i t 0 - nth j t 0).
  { rewrite get2_TDMatrix by lia. destruct (Nat.leb_spec j i); [reflexivity|lia]. }
  split.
  - intros x. rewrite in_entries_SparseTDMatrix, E. tauto.
  - intros Hinc Hmax. apply in_entries_SparseTDMatrix.
    pose proof (TDMatrix_nonneg t i j Hinc Hi ltac:(lia)) as Hn.
    repeat split; auto. lra.
Qed.

Lemma SparseTDMatrix_dense_witness :
  (forall x, In (3%nat, 1%nat, x) (entries (SparseTDMatrix [0; 1; 2; 10] 0)) <->
             x = get2 (TDMatrix [0; 1; 2; 10]) 3 1 /\ x >= 0) /\
  In (3%nat, 1%nat, get2 (TDMatrix [0; 1; 2; 10]) 3 1)
     (entries (SparseTDMatrix [0; 1; 2; 10] 0)).
Proof.
  destruct (SparseTDMatrix_dense [0; 1; 2; 10] 0 3 1) as [H1 H2].
  - simpl. lia.
  - lia.
  - split; [exact H1|]. apply H2.
    + simpl. repeat split; lra.
    + lra.
Defined.

(** X13. With a strictly positive threshold no diagonal entry is stored,
    whatever the timestamps: the gap of an event to itself is 0. *)
Theorem SparseTDMatrix_no_diagonal (t : vector) (max_td : R) (i : nat) (x : R) :
  0 < max_td -> ~ In (i, i, x) (entries (SparseTDMatrix t max_td)).
Proof.
  intros Hmax Hin. apply in_entries_SparseTDMatrix in Hin.
  destruct Hin as (_ & _ & Hx & Hge). lra.
Qed.

Lemma SparseTDMatrix_no_diagonal_witness :
  ~ In (3%nat, 3%nat, 0) (entries (SparseTDMatrix [0; 1; 2; 10] 5)).
Proof.
  apply (SparseTDMatrix_no_diagonal [0; 1; 2; 10] 5 3 0). lra.
Defined.

Lemma map_fst_combine_eq {A B : Type} (l : list A) (l' : list B) :
  length l = length l' -> map fst (combine l l') = l.
Proof.
  revert l'; induction l as [|x l IH]; intros [|y l'] H; simpl in *;
    try discriminate; auto.
  f_equal. apply IH. lia.
Qed.

Lemma NoDup_map_filter {A B : Type} (g : A -> B) (h : A -> bool) (l : list A) :
  NoDup (map g l) -> NoDup (map g (filter h l)).
Proof.
  induction l as [|x l IH]; simpl; intros H; [constructor|].
  inversion H as [|y l' Hnin Hnd]; subst.
  destruct (h x); simpl; auto.
  constructor; auto.
  intros Hin. apply Hnin. apply in_map_iff in Hin.
  destruct Hin as [z [Ez Hz]]. apply filter_In in Hz.
  apply in_map_iff. exists z. tauto.
Qed.

Lemma NoDup_lower_cells (n : nat) (v : nat -> nat -> R) :
  NoDup (map fst (lower_cells n v)).
Proof.
  unfold lower_cells.
  assert (H : forall l, NoDup l ->
             NoDup (map fst (flat_map
                      (fun i => map (fun j => (i, j, v i j)) (seq 0 (i + 1))) l))).
  { induction l as [|i l IH]; intros Hl; simpl; [constructor|].
    inversion Hl as [|i' l' Hnin Hnd]; subst.
    rewrite map_app. apply NoDup_app.
    - rewrite map_map. cbn [fst].
      apply NoDup_map_NoDup_ForallPairs; [|apply seq_NoDup].
      intros j j' _ _ E. congruence.
    - now apply IH.
    - intros c Hc Hc'. apply in_map_iff in Hc.
      destruct Hc as [[[i1 j1] x1] [E1 H1]]. apply in_map_iff in H1.
      destruct H1 as [j [Ej _]]. inversion Ej; subst. cbn [fst] in *.
      apply in_map_iff in Hc'. destruct Hc' as [[[i2 j2] x2] [E2 H2]].
      cbn [fst] in E2. inversion E2; subst.
      apply in_flat_map in H2. destruct H2 as [k [Hk Hin]].
      apply in_map_iff in Hin. destruct Hin as [j' [Ej' _]].
      inversion Ej'; subst. contradiction. }
  apply H, seq_NoDup.
Qed.

(** X14. [SparseTDMatrix] hands [csr_matrix] an [n] by [n] shape, three
    lists of one length, positions inside the shape and no position twice,
    so the compressed matrix sums no duplicates and keeps every value. *)
Theorem SparseTDMatrix_well_formed (t : vector) (max_td : R) :
  let m := SparseTDMatrix t max_td in
  csr_shape m = (length t, length t) /\
  length (csr_row m) = length (csr_data m) /\
  length (csr_col m) = length (csr_data m) /\
  NoDup (stored m) /\
  Forall (fun c => (fst c < length t)%nat /\ (snd c <= fst c)%nat) (stored m).
Proof.
  cbv zeta.
  destruct (SparseTDMatrix_entries t max_td) as (Hs & H1 & H2 & He).
  assert (Est : stored (SparseTDMatrix t max_td)
                = map fst (entries (SparseTDMatrix t max_td))).
  { unfold entries. rewrite map_fst_combine_eq; [reflexivity|].
    unfold stored. rewrite length_combine. lia. }
  repeat split; auto; try lia.
  - rewrite Est, He. apply NoDup_map_filter, NoDup_lower_cells.
  - apply Forall_forall. intros [i j] Hin.
    apply in_stored_entries in Hin; auto. destruct Hin as [x Hx].
    apply in_entries_SparseTDMatrix in Hx. cbn [fst snd]. tauto.
Qed.

(** ** The sufficient statistics of a pass *)

Lemma sum_map_le {A : Type} (g h : A -> R) (l : list A) :
  (forall x, In x l -> g x <= h x) -> sum (map g l) <= sum (map h l).
Proof.
  induction l as [|x l IH]; intros H; simpl; [lra|].
  assert (g x <= h x) by (apply H; now left).
  assert (sum (map g l) <= sum (map h l))
    by (apply IH; intros y Hy; apply H; now right).
  lra.
Qed.

Lemma sum_map_lt {A : Type} (g h : A -> R) (l : list A) (y : A) :
  (forall x, In x l -> g x <= h x) -> In y l -> g y < h y ->
  sum (map g l) < sum (map h l).
Proof.
  induction l as [|x l IH]; intros H Hy Hlt; simpl; [destruct Hy|].
  assert (Hx : g x <= h x) by (apply H; now left).
  assert (Hl : sum (map g l) <= sum (map h l))
    by (apply sum_map_le; intros z Hz; apply H; now right).
  destruct Hy as [->|Hy]; [lra|].
  assert (sum (map g l) < sum (map h l))
    by (apply IH; auto; intros z Hz; apply H; now right).
  lra.
Qed.

Lemma sum_map_const {A : Type} (c : R) (l : list A) :
  sum (map (fun _ => c) l) = INR (length l) * c.
Proof.
  induction l as [|x l IH]; [simpl; lra|].
  cbn [map sum fold_right]. fold (sum (map (fun _ : A => c) l)).
  rewrite IH. cbn [length]. rewrite S_INR. ring.
Qed.

Section Responsibilities.

Variables (dt : matrix) (mu a b : R).
Hypotheses (Hmu : 0 < mu) (Ha : 0 < a).

Local Abbreviation w := (raw dt mu a b).

Lemma resp_entry (n i j : nat) :
  (i < n)%nat -> (j < n)%nat ->
  get2 (normalized n w) i j = w i j / sum (map (w i) (seq 0 n)).
Proof.
  intros Hi Hj. unfold normalized. now rewrite get2_table.
Qed.

Lemma resp_bounds (n i j : nat) :
  (i < n)%nat -> (j < n)%nat -> 0 <= get2 (normalized n w) i j <= 1.
Proof.
  intros Hi Hj. rewrite resp_entry by auto.
  pose proof (raw_row_sum_pos n dt mu a b i Hmu Ha Hi) as Hs.
  assert (H0 : 0 <= w i j) by now apply raw_nonneg.
  assert (H1 : w i j <= sum (map (w i) (seq 0 n))).
  { apply sum_map_ge.
    - intros k _. now apply raw_nonneg.
    - apply in_seq. lia. }
  split.
  - apply Rmult_le_pos; [exact H0|]. left. now apply Rinv_0_lt_compat.
  - apply (Rmult_le_reg_r (sum (map (w i) (seq 0 n)))); [exact Hs|].
    unfold Rdiv. rewrite Rmult_assoc, Rinv_l by lra. lra.
Qed.

Lemma resp_first (n : nat) : (0 < n)%nat -> get2 (normalized n w) 0 0 = 1.
Proof.
  intros H0. rewrite resp_entry by auto.
  destruct n as [|n']; [lia|].
  assert (Ez : sum (map (w 0%nat) (seq 1 n')) = 0).
  { apply sum_map_zero. intros j Hj. apply in_seq in Hj. unfold raw.
    destruct (Nat.ltb_spec j 0); [lia|].
    destruct (Nat.eqb_spec j 0); [lia|]. reflexivity. }
  assert (E0 : w 0%nat 0%nat = mu) by reflexivity.
  rewrite <- cons_seq. cbn [map sum fold_right].
  fold (sum (map (w 0%nat) (seq 1 n'))).
  rewrite Ez, E0. field. lra.
Qed.

Lemma resp_below_pos (n i j : nat) :
  (i < n)%nat -> (j < i)%nat -> 0 < get2 (normalized n w) i j.
Proof.
  intros Hi Hj. rewrite resp_entry by lia.
  pose proof (raw_row_sum_pos n dt mu a b i Hmu Ha Hi) as Hs.
  apply Rmult_lt_0_compat; [|now apply Rinv_0_lt_compat].
  unfold raw. destruct (Nat.ltb_spec j i); [|lia].
  pose proof (exp_pos (- b * get2 dt i j)). nra.
Qed.

(** The diagonal weight of the second row is not the whole row. *)
Lemma resp_second_lt (n : nat) :
  (2 <= n)%nat -> get2 (normalized n w) 1 1 < 1.
Proof.
  intros H2. rewrite resp_entry by lia.
  destruct n as [|[|n']]; try lia.
  change (seq 0 (S (S n'))) with (0%nat :: 1%nat :: seq 2 n').
  cbn [map sum fold_right].
  fold (sum (map (w 1%nat) (seq 2 n'))).
  assert (Hr : 0 <= sum (map (w 1%nat) (seq 2 n'))).
  { apply sum_map_nonneg. intros k _. now apply raw_nonneg. }
  assert (E1 : w 1%nat 1%nat = mu) by reflexivity.
  assert (E0 : 0 < w 1%nat 0%nat).
  { unfold raw. cbn [Nat.ltb Nat.leb].
    pose proof (exp_pos (- b * get2 dt 1 0)). nra. }
  rewrite E1.
  apply (Rmult_lt_reg_r (w 1%nat 0%nat + (mu + sum (map (w 1%nat) (seq 2 n'))))).
  - lra.
  - unfold Rdiv. rewrite Rmult_assoc, Rinv_l by lra. lra.
Qed.

Lemma stat0_square_bounds (n : nat) :
  (2 <= n)%nat -> 1 <= stat0 (normalized n w) < INR n.
Proof.
  intros H2.
  assert (Hp : is_matrix n n (normalized n w)) by apply is_matrix_table.
  rewrite (stat0_square n _ Hp). split.
  - rewrite <- (resp_first n) by lia.
    apply (sum_map_ge (fun i => get2 (normalized n w) i i) (seq 0 n) 0%nat).
    + intros i Hi. apply in_seq in Hi. apply resp_bounds; lia.
    + apply in_seq. lia.
  - replace (INR n) with (sum (map (fun _ : nat => 1) (seq 0 n))).
    2:{ rewrite sum_map_const, length_seq. ring. }
    apply (sum_map_lt _ _ _ 1%nat).
    + intros i Hi. apply in_seq in Hi. apply resp_bounds; lia.
    + apply in_seq. lia.
    + now apply resp_second_lt.
Qed.

End Responsibilities.

Lemma stat0_bounds (t : vector) (mu a b : R) :
  0 < mu -> 0 < a -> (2 <= length t)%nat ->
  1 <= stat0 (normalized (length t) (raw (TDMatrix t) mu a b)) < INR (length t).
Proof.
  intros Hmu Ha H2. now apply stat0_square_bounds.
Qed.

Lemma stat2_negative (t : vector) (mu a b : R) :
  0 < mu -> 0 < a -> increasing t -> (2 <= length t)%nat ->
  stat2 (normalized (length t) (raw (TDMatrix t) mu a b)) (TDMatrix t) < 0.
Proof.
  intros Hmu Ha Hinc H2.
  set (p := normalized (length t) (raw (TDMatrix t) mu a b)).
  assert (Hp : is_matrix (length t) (length t) p) by apply is_matrix_table.
  assert (Hdt : is_matrix (length t) (length t) (TDMatrix t))
    by apply is_matrix_TDMatrix.
  assert (Hl : lower (length t) p) by apply normalized_raw_lower.
  rewrite (stat2_lower (length t) p (TDMatrix t) Hp Hdt Hl).
  set (g := fun i j => get2 p i j * get2 (TDMatrix t) i j).
  assert (Hg : forall i j, (i < length t)%nat -> (j <= i)%nat -> 0 <= g i j).
  { intros i j Hi Hj. unfold g. apply Rmult_le_pos.
    - apply resp_bounds; auto; lia.
    - apply TDMatrix_nonneg; auto; lia. }
  assert (H10 : 0 < g 1%nat 0%nat).
  { unfold g. apply Rmult_lt_0_compat.
    - apply resp_below_pos; auto; lia.
    - rewrite get2_TDMatrix by lia. cbn [Nat.leb].
      pose proof (increasing_nth t 0 1 Hinc ltac:(lia) ltac:(lia)). lra. }
  assert (Hrow : g 1%nat 0%nat <= sum (map (g 1%nat) (seq 0 (1 + 1)))).
  { apply sum_map_ge.
    - intros j Hj. apply in_seq in Hj. apply Hg; lia.
    - apply in_seq. lia. }
  assert (Htri : sum (map (g 1%nat) (seq 0 (1 + 1))) <= tri_sum (length t) g).
  { unfold tri_sum.
    apply (sum_map_ge (fun i => sum (map (g i) (seq 0 (i + 1))))
                      (seq 0 (length t)) 1%nat).
    - intros i Hi. apply in_seq in Hi. apply sum_map_nonneg.
      intros j Hj. apply in_seq in Hj. apply Hg; lia.
    - apply in_seq. lia. }
  lra.
Qed.

(** X5. For at least two strictly increasing timestamps and positive [mu]
    and [a], the statistics of the E-step satisfy [1 <= S0 < n],
    [0 < S1 <= n - 1], [S0 + S1 = n] and [S2 < 0]: the first event is
    background for sure, and some mass is always triggered. *)
Theorem statistics_bounds (t : vector) (mu a b : R) :
  increasing t -> (2 <= length t)%nat -> 0 < mu -> 0 < a ->
  exists p,
    StructProbMatrix (TDMatrix t) mu a b = Ok p /\
    1 <= stat0 p < INR (length t) /\
    0 < stat1 t p <= INR (length t) - 1 /\
    stat0 p + stat1 t p = INR (length t) /\
    stat2 p (TDMatrix t) < 0.
Proof.
  intros Hinc H2 Hmu Ha.
  exists (normalized (length t) (raw (TDMatrix t) mu a b)).
  pose proof (stat0_bounds t mu a b Hmu Ha H2) as H0.
  pose proof (stat2_negative t mu a b Hmu Ha Hinc H2) as HS2.
  split; [apply StructProbMatrix_table, is_matrix_TDMatrix|].
  unfold stat1. repeat split; try lra; exact HS2.
Qed.

Lemma statistics_bounds_witness :
  exists p,
    StructProbMatrix (TDMatrix [0; 1; 2; 10]) (9 / 10) (8 / 10) (5 / 10) = Ok p /\
    1 <= stat0 p < INR 4 /\
    0 < stat1 [0; 1; 2; 10] p <= INR 4 - 1 /\
    stat0 p + stat1 [0; 1; 2; 10] p = INR 4 /\
    stat2 p (TDMatrix [0; 1; 2; 10]) < 0.
Proof.
  apply (statistics_bounds [0; 1; 2; 10] (9 / 10) (8 / 10) (5 / 10)).
  - simpl. repeat split; lra.
  - simpl. lia.
  - lra.
  - lra.
Defined.

(** ** The denominator of the maximization *)

Lemma exp_le_1 (x : R) : x <= 0 -> exp x <= 1.
Proof.
  intros [Hlt | ->].
  - left. rewrite <- exp_0. now apply exp_increasing.
  - rewrite exp_0. lra.
Qed.

Lemma horizon_pos (t : vector) :
  increasing t -> (2 <= length t)%nat ->
  0 < nth (length t - 1) t 0 - nth 0 t 0.
Proof.
  intros Hinc H2.
  pose proof (increasing_nth t 0 (length t - 1) Hinc ltac:(lia) ltac:(lia)).
  lra.
Qed.

Lemma nth_le_last (t : vector) (i : nat) :
  increasing t -> (i < length t)%nat -> nth i t 0 <= nth (length t - 1) t 0.
Proof.
  intros Hinc Hi.
  destruct (Nat.eq_dec i (length t - 1)) as [->|Hne]; [lra|].
  left. apply increasing_nth; auto; lia.
Qed.

Lemma survivor_pos (t : vector) (b : R) :
  increasing t -> (2 <= length t)%nat -> nth 0 t 0 <= 0 -> 0 < b ->
  0 < survivor t (nth (length t - 1) t 0 - nth 0 t 0) b.
Proof.
  intros Hinc H2 H0 Hb. unfold survivor.
  set (T := nth (length t - 1) t 0 - nth 0 t 0).
  pose proof (horizon_pos t Hinc H2) as HT. fold T in HT.
  set (g := fun ti => 1 - exp (- b * (T - ti))).
  assert (Hg : forall ti, In ti t -> 0 <= g ti).
  { intros ti Hin. destruct (In_nth t ti 0 Hin) as [i [Hi <-]].
    pose proof (nth_le_last t i Hinc Hi) as Hle. unfold g.
    assert (exp (- b * (T - nth i t 0)) <= 1).
    { apply exp_le_1. unfold T. nra. }
    lra. }
  assert (Hfirst : 0 < g (nth 0 t 0)).
  { unfold g.
    assert (exp (- b * (T - nth 0 t 0)) < exp 0).
    { apply exp_increasing. nra. }
    rewrite exp_0 in *. lra. }
  assert (Hsum : g (nth 0 t 0) <= sum (map g t)).
  { apply sum_map_ge; [exact Hg|]. apply nth_In. lia. }
  lra.
Qed.

(** X7. Over the reals: for at least two strictly increasing timestamps
    whose first one is not positive (the code measures [T - t_i] from time
    0) and [b > 0], the horizon [T] is positive and the denominator
    [sum_i (1 - exp (- b * (T - t_i)))] of the root objective and of the
    update of [a] is strictly positive.  (On float64 the terms can round to
    0 for a small [b].) *)
Theorem survivor_positive (t : vector) (b : R) :
  increasing t -> (2 <= length t)%nat -> nth 0 t 0 <= 0 -> 0 < b ->
  exists T,
    horizon t = Ok T /\ 0 < T /\ 0 < survivor t T b.
Proof.
  intros Hinc H2 H0 Hb.
  exists (nth (length t - 1) t 0 - nth 0 t 0). split; [|split].
  - apply horizon_value. intros ->. simpl in H2. lia.
  - now apply horizon_pos.
  - now apply survivor_pos.
Qed.

Lemma survivor_positive_witness :
  exists T,
    horizon [0; 1; 2; 10] = Ok T /\ 0 < T /\ 0 < survivor [0; 1; 2; 10] T (5 / 10).
Proof.
  apply (survivor_positive [0; 1; 2; 10] (5 / 10)).
  - simpl. repeat split; lra.
  - simpl. lia.
  - simpl. lra.
  - lra.
Defined.

(** X6. Over the reals, a pass keeps the parameters positive: from at least
    two strictly increasing timestamps with first timestamp not positive and
    positive [mu] and [a], if the root finder returns a positive [b'], then
    the new [mu] and the new [a] are strictly positive.  (On float64 a tiny
    [a] can be absorbed by the row sum, and the new [a] is then 0.) *)
Theorem iteration_positive (newton : solver) (t : vector) (mu a b : R)
  (o : observation) :
  increasing t -> (2 <= length t)%nat -> nth 0 t 0 <= 0 ->
  0 < mu -> 0 < a ->
  iteration newton t (nth (length t - 1) t 0 - nth 0 t 0) (TDMatrix t) mu a b
  = Ok o ->
  0 < o_b o ->
  0 < o_mu o /\ 0 < o_a o.
Proof.
  intros Hinc H2 H0 Hmu Ha Hit Hb.
  destruct (iteration_inv _ _ _ _ _ _ _ Hit) as (_ & _ & Eo).
  set (T := nth (length t - 1) t 0 - nth 0 t 0) in *.
  set (p := normalized (length t) (raw (TDMatrix t) mu a b)) in *.
  pose proof (stat0_bounds t mu a b Hmu Ha H2) as HS0. fold p in HS0.
  pose proof (horizon_pos t Hinc H2) as HT. fold T in HT.
  pose proof (survivor_pos t (o_b o) Hinc H2 H0 Hb) as Hs. fold T in Hs.
  assert (Emu : o_mu o = stat0 p / T) by (rewrite Eo; reflexivity).
  assert (Ea : o_a o = o_b o * stat1 t p / survivor t T (o_b o))
    by (rewrite Eo at 1; reflexivity).
  rewrite Emu, Ea. unfold stat1. split.
  - apply Rmult_lt_0_compat; [lra|]. now apply Rinv_0_lt_compat.
  - apply Rmult_lt_0_compat; [|now apply Rinv_0_lt_compat].
    apply Rmult_lt_0_compat; lra.
Qed.

Lemma iteration_positive_witness :
  exists o,
    iteration (fun _ x0 => Ok x0) [0; 1]
      (nth (length [0; 1] - 1) [0; 1] 0 - nth 0 [0; 1] 0) (TDMatrix [0; 1]) 1 1 1
    = Ok o /\
    0 < o_mu o /\ 0 < o_a o.
Proof.
  destruct (iteration_total (fun _ x0 => Ok x0) [0; 1]
              (nth (length [0; 1] - 1) [0; 1] 0 - nth 0 [0; 1] 0) 1 1 1)
    as [o Ho].
  { intros g x. exists x. reflexivity. }
  exists o. split; [exact Ho|].
  apply (iteration_positive (fun _ x0 => Ok x0) [0; 1] 1 1 1 o); try lra.
  - simpl. repeat split; lra.
  - simpl. lia.
  - simpl. lra.
  - exact Ho.
  - destruct (iteration_inv _ _ _ _ _ _ _ Ho) as (_ & Hn & _).
    injection Hn as <-. lra.
Defined.

(** ** The driver as a whole *)

Lemma loop_in (newton : solver) (cb : bool) (t : vector) (T : R) (dt : matrix)
  (niter : nat) (mu a b : R) (pp : option matrix) (o : observation) :
  In o (fst (loop newton niter cb t T dt mu a b pp)) ->
  exists mu' a' b', iteration newton t T dt mu' a' b' = Ok o.
Proof.
  revert mu a b pp.
  induction niter as [|n IH]; intros mu a b pp H; cbn [loop] in H.
  - destruct H.
  - destruct (iteration newton t T dt mu a b) as [o1|e] eqn:E1;
      cbn [fst] in H; [|destruct H].
    apply in_app_or in H. destruct H as [H|H].
    + destruct cb; [|destruct H]. destruct H as [<-|[]].
      exists mu, a, b. exact E1.
    + now apply IH in H.
Qed.

Lemma loop_raise (newton : solver) (cb : bool) (t : vector) (T : R)
  (niter : nat) (mu a b : R) (pp : option matrix) (e : exn) :
  snd (loop newton niter cb t T (TDMatrix t) mu a b pp) = Raise e ->
  exists g x, newton g x = Raise e.
Proof.
  revert mu a b pp.
  induction niter as [|n IH]; intros mu a b pp H; cbn [loop] in H.
  - discriminate.
  - destruct (iteration newton t T (TDMatrix t) mu a b) as [o1|e1] eqn:E1;
      cbn [snd] in H.
    + now apply IH in H.
    + injection H as ->. unfold iteration in E1.
      rewrite (StructProbMatrix_table (length t)) in E1
        by apply is_matrix_TDMatrix.
      cbn [bind] in E1. unfold maximization in E1.
      match type of E1 with
      | context [newton ?g b] =>
          destruct (newton g b) as [r|e'] eqn:En; cbn [bind] in E1;
          [discriminate|]; exists g, b
      end.
      congruence.
Qed.

(** What a completed run returns is what the observer saw last. *)
Lemma loop_result (newton : solver) (cb : bool) (t : vector) (T : R)
  (dt : matrix) (niter : nat) (mu a b : R) (pp : option matrix)
  (mu' a' b' : R) (pp' : option matrix) :
  snd (loop newton niter cb t T dt mu a b pp) = Ok (mu', a', b', pp') ->
  length (fst (loop newton niter true t T dt mu a b pp)) = niter /\
  (niter = 0%nat -> (mu', a', b', pp') = (mu, a, b, pp)) /\
  (forall k, niter = S k ->
     exists o,
       nth_error (fst (loop newton niter true t T dt mu a b pp)) k = Some o /\
       mu' = o_mu o /\ a' = o_a o /\ b' = o_b o /\ pp' = Some (o_p o)).
Proof.
  revert mu a b pp.
  induction niter as [|n IH]; intros mu a b pp H; cbn [loop] in *.
  - cbn [snd] in H. injection H as <- <- <- <-.
    repeat split; auto. intros k Hk. discriminate.
  - destruct (iteration newton t T dt mu a b) as [o1|e] eqn:E1;
      cbn [fst snd] in *; [|discriminate].
    destruct (IH _ _ _ _ H) as (Hl & H0 & HS).
    split; [cbn [app length]; now rewrite Hl|].
    split; [discriminate|].
    intros k Hk. injection Hk as <-.
    destruct n as [|k'].
    + specialize (H0 eq_refl). injection H0 as -> -> -> ->.
      exists o1. cbn. auto.
    + destruct (HS k' eq_refl) as (o & Ho & E).
      exists o. split; [exact Ho | exact E].
Qed.

(** X1. The driver returns nothing without a pass: on an empty sequence
    it raises [IndexError] whatever [niter] is, and with [niter = 0] on a
    non-empty sequence it raises [UnboundLocalError], because [p] is only
    assigned inside the loop; the observer is not called. *)
Theorem EM_without_pass (newton : solver) (t : vector) (niter : nat)
  (mu0 a0 b0 : R) (cb : bool) :
  t <> [] ->
  ExpectationMaximization newton [] niter mu0 a0 b0 cb = ([], Raise IndexError) /\
  ExpectationMaximization newton t 0 mu0 a0 b0 cb = ([], Raise UnboundLocalError).
Proof.
  intros Ht. split; [reflexivity|].
  unfold ExpectationMaximization. rewrite (horizon_value t Ht). reflexivity.
Qed.

Lemma EM_without_pass_witness :
  ExpectationMaximization seed_solver [0; 1; 2; 10] 0 (9 / 10) (8 / 10) (5 / 10) true
  = ([], Raise UnboundLocalError).
Proof.
  apply (EM_without_pass seed_solver [0; 1; 2; 10] 0). discriminate.
Defined.

(** X2. Every call of the observer sees the same [t], the same
    [dt = TDMatrix t] and the same horizon, statistics with [S0 + S1 = n]
    computed from the responsibilities it is handed, and responsibilities
    that are [n] by [n] and zero above the diagonal, whatever the parameters
    of the pass were. *)
Theorem EM_observations (newton : solver) (t : vector) (niter : nat)
  (mu0 a0 b0 : R) (cb : bool) (o : observation) :
  In o (fst (ExpectationMaximization newton t niter mu0 a0 b0 cb)) ->
  o_t o = t /\ o_dt o = TDMatrix t /\ horizon t = Ok (o_T o) /\
  o_S0 o = stat0 (o_p o) /\ o_S1 o = stat1 t (o_p o) /\
  o_S2 o = stat2 (o_p o) (TDMatrix t) /\
  o_S0 o + o_S1 o = INR (length t) /\
  is_matrix (length t) (length t) (o_p o) /\
  lower (length t) (o_p o).
Proof.
  intros Hin.
  destruct (EM_log newton t niter mu0 a0 b0 cb o Hin) as (T & HT & Elog).
  rewrite Elog in Hin.
  destruct (loop_in _ _ _ _ _ _ _ _ _ _ _ Hin) as (mu & a & b & Hit).
  destruct (iteration_inv _ _ _ _ _ _ _ Hit) as (_ & _ & Eo).
  rewrite Eo. cbn [o_t o_dt o_T o_S0 o_S1 o_S2 o_p].
  split; [reflexivity|]. split; [reflexivity|]. split; [exact HT|].
  split; [reflexivity|]. split; [reflexivity|]. split; [reflexivity|].
  split; [unfold stat1; ring|].
  split; [apply is_matrix_table | apply normalized_raw_lower].
Qed.

Lemma EM_observations_witness :
  let o := mk_obs 2 0 1 [0; 1] [[1; 0]; [0; 1]] (TDMatrix [0; 1]) 1 2 0 0 in
  o_S0 o + o_S1 o = INR 2 /\ lower 2 (o_p o).
Proof.
  cbv zeta.
  destruct (EM_observations seed_solver [0; 1] 1 1 0 1 true
              (mk_obs 2 0 1 [0; 1] [[1; 0]; [0; 1]] (TDMatrix [0; 1]) 1 2 0 0))
    as (_ & _ & _ & _ & _ & _ & Hs & _ & Hl).
  - rewrite EM_example. left. reflexivity.
  - split; [exact Hs | exact Hl].
Defined.



(** X4. The driver raises nothing of its own beyond the two cases of a run
    without a pass: an error it raises is the [IndexError] of an empty
    sequence, the [UnboundLocalError] of [niter = 0], or an error the root
    finder raised; on a non-empty sequence the index assignments of the
    E-step never fail. *)
Theorem EM_errors (newton : solver) (t : vector) (niter : nat)
  (mu0 a0 b0 : R) (cb : bool) (e : exn) :
  snd (ExpectationMaximization newton t niter mu0 a0 b0 cb) = Raise e ->
  (t = [] /\ e = IndexError) \/
  (t <> [] /\ niter = 0%nat /\ e = UnboundLocalError) \/
  (t <> [] /\ (1 <= niter)%nat /\ exists g x, newton g x = Raise e).
Proof.
  unfold ExpectationMaximization.
  destruct t as [|x t']; [cbn; intros H; injection H as <-; auto|].
  rewrite horizon_value by discriminate.
  set (t := x :: t'). set (T := nth (length t - 1) t 0 - nth 0 t 0).
  cbn [fst snd]. intros H. right.
  destruct (snd (loop newton niter cb t T (TDMatrix t) mu0 a0 b0 None))
    as [[[[mu' a'] b'] pp']|e'] eqn:Hs; cbn [bind fst snd] in H.
  - destruct pp' as [p'|]; [discriminate|]. injection H as <-.
    destruct (loop_result _ _ _ _ _ _ _ _ _ _ _ _ _ _ Hs) as (_ & _ & HS).
    destruct niter as [|k].
    + left. repeat split. discriminate.
    + destruct (HS k eq_refl) as (o & _ & _ & _ & _ & Ep). discriminate.
  - injection H as ->. right.
    destruct niter as [|k]; [discriminate|].
    repeat split; [discriminate | lia |].
    now apply loop_raise in Hs.
Qed.

Lemma EM_errors_witness :
  ([0; 1] = [] /\ RuntimeError = IndexError) \/
  ([0; 1] <> [] /\ 1%nat = 0%nat /\ RuntimeError = UnboundLocalError) \/
  ([0; 1] <> [] /\ (1 <= 1)%nat /\
   exists g x, (fun (_ : R -> R) (_ : R) => @Raise R RuntimeError) g x
               = Raise RuntimeError).
Proof.
  apply (EM_errors (fun _ _ => Raise RuntimeError) [0; 1] 1 1 1 1 true).
  unfold ExpectationMaximization.
  rewrite horizon_value by discriminate.
  cbn [loop]. unfold iteration.
  rewrite (StructProbMatrix_table 2) by apply (is_matrix_TDMatrix [0; 1]).
  reflexivity.
Defined.

(** ** The maximization and the surrogate objective *)













